(** * RRT motion planner (Problem_2/rrt.py): shallow embedding and properties

    The planner works on numpy float arrays.  For the search driver, numbers
    are idealised as real numbers ([R]); [float('inf')] is the extra point
    [PInf] of [xreal].  A state is the list of its coordinates.  The steering
    function is also given over the binary64 floats that numpy computes with
    (module [Float64]), and the arrays that a run shares or allocates are
    followed in a store (module [Store]).  The random source, the segment
    intersection test of [utils] and the path functions of [dubins] are not
    part of the file and are taken as parameters. *)

From Stdlib Require Import List ZArith Reals Lra Lia Bool.
From Stdlib Require Floats QArith.
Import ListNotations.

Open Scope R_scope.

(** ** Numbers *)

(** The comparisons [a < b] and [a == b] as Python evaluates them, to a
    truth value. *)
Definition Rltb (a b : R) : bool := if Rlt_dec a b then true else false.
Definition Reqb (a b : R) : bool := if Req_dec_T a b then true else false.

(** A threshold that starts at [float('inf')]. *)
Inductive xreal : Type :=
| Fin (r : R)
| PInf.

(** [d < t] for a finite [d]. *)
Definition xlt (d : R) (t : xreal) : bool :=
  match t with
  | Fin r => Rltb d r
  | PInf => true
  end.

(** [t != 0]. *)
Definition xnonzero (t : xreal) : bool :=
  match t with
  | Fin r => negb (Reqb r 0)
  | PInf => true
  end.

(** ** States as coordinate vectors *)

Definition State : Type := list R.

(** A wall, or a motion: two end points. *)
Definition Segment : Type := (State * State)%type.

(** An operation on two states, component by component.  The planner
    combines states of one dimension; on lists of different lengths [vzip]
    stops with the shorter one, where numpy raises ValueError or stretches an
    array of one component ([Float64.broadcast] has these cases). *)
Fixpoint vzip (f : R -> R -> R) (a b : State) : State :=
  match a, b with
  | u :: a', v :: b' => f u v :: vzip f a' b'
  | _, _ => []
  end.

Definition vsub : State -> State -> State := vzip Rminus.
Definition vadd : State -> State -> State := vzip Rplus.
Definition vscale (c : R) (v : State) : State := map (Rmult c) v.

Fixpoint sumsq (v : State) : R :=
  match v with
  | [] => 0
  | c :: v' => c * c + sumsq v'
  end.

(** [np.linalg.norm] of a vector, without rounding, overflow or underflow. *)
Definition norm (v : State) : R := sqrt (sumsq v).

(** A row of [np.zeros((max_iters, state_dim))]. *)
Definition zeros (state_dim : nat) : State := repeat 0 state_dim.

(** [np.array_equal] on two states. *)
Fixpoint array_equal (a b : State) : bool :=
  match a, b with
  | [], [] => true
  | u :: a', v :: b' => Reqb u v && array_equal a' b'
  | _, _ => false
  end.

(** ** GeometricRRT: straight-line steering, Euclidean metric *)

Module GeometricRRT.

(** The [for i in range(V.shape[0])] loop of [find_nearest]; [rows] are the
    rows not yet visited and [i] is the index of the first of them. *)
Fixpoint nearest_loop (x : State) (rows : list State) (i : nat)
         (threshold : xreal) (nearidx : nat) : nat :=
  match rows with
  | [] => nearidx
  | row :: rest =>
      if Reqb (norm row) 0 then nearest_loop x rest (S i) threshold nearidx
      else
        let dist := norm (vsub row x) in
        if xlt dist threshold && xnonzero threshold
        then nearest_loop x rest (S i) (Fin dist) i
        else nearest_loop x rest (S i) threshold nearidx
  end.

Definition find_nearest (V : list State) (x : State) : nat :=
  nearest_loop x V 0 PInf 0.

(** Lines 144 to 149 over the reals: no operation rounds, and a division by
    zero gives 0 where numpy gives an infinity or NaN.
    [Float64.steer_towards] is the function on binary64 floats. *)
Definition steer_towards (x y : State) (eps : R) : State :=
  let mag := norm (vsub y x) in
  if Rltb mag eps then y
  else vadd x (vscale (eps / mag) (vsub y x)).

Section Obstacles.
(** [utils.line_line_intersection], used through its truth value. *)
Variable line_line_intersection : Segment -> Segment -> bool.

Fixpoint is_free_motion (obstacles : list Segment) (x1 x2 : State) : bool :=
  match obstacles with
  | [] => true
  | line :: rest =>
      if line_line_intersection (x1, x2) line then false
      else is_free_motion rest x1 x2
  end.
End Obstacles.

End GeometricRRT.

(** ** DubinsRRT: nearest neighbour under the Dubins path length *)

Module DubinsRRT.

Section Dubins.
(** [dubins.path_length q0 q1 turning_radius]. *)
Variable path_length : State -> State -> R -> R.
Variable turning_radius : R.

(** [V[i,c]]: coordinate [c] of a row. *)
Definition coord (row : State) (c : nat) : R := nth c row 0.

Fixpoint nearest_loop (x : State) (rows : list State) (i : nat)
         (threshold : R) (nearidx : nat) : nat :=
  match rows with
  | [] => nearidx
  | row :: rest =>
      if Reqb (coord row 0) 0 && Reqb (coord row 1) 0 && Reqb (coord row 2) 0
      then nearest_loop x rest (S i) threshold nearidx
      else
        let path_dist := path_length row x turning_radius in
        if Rltb path_dist threshold
        then nearest_loop x rest (S i) path_dist i
        else nearest_loop x rest (S i) threshold nearidx
  end.

Definition find_nearest (V : list State) (x : State) : nat :=
  nearest_loop x V 0 10000 0.
End Dubins.

Section DubinsMotion.
(** [dubins.path_sample q0 q1 turning_radius step_size]: the sampled
    configurations and their distances along the path. *)
Variable path_sample : State -> State -> R -> R -> list State * list R.
(** [utils.line_line_intersection], used through its truth value. *)
Variable line_line_intersection : Segment -> Segment -> bool.
Variable turning_radius : R.

(** [p[:2]]. *)
Definition xy (p : State) : State := firstn 2 p.

(** The loop [for line in obstacles] for the piece from [a] to [b] of the
    path; true when it leaves the function with [False]. *)
Fixpoint piece_hits (obstacles : list Segment) (a b : State) : bool :=
  match obstacles with
  | [] => false
  | line :: rest =>
      if line_line_intersection (xy a, xy b) line then true
      else piece_hits rest a b
  end.

(** The loop [for i in range(len(pts) - 1)]. *)
Fixpoint pieces_free (obstacles : list Segment) (pts : list State) : bool :=
  match pts with
  | a :: ((b :: _) as rest) =>
      if piece_hits obstacles a b then false else pieces_free obstacles rest
  | _ => true
  end.

Definition is_free_motion (obstacles : list Segment) (x1 x2 : State) (resolution : R)
  : bool :=
  let pts := fst (path_sample x1 x2 turning_radius (turning_radius * resolution)) in
  pieces_free obstacles (pts ++ [x2]).
End DubinsMotion.

(** The default value of [resolution] in [is_free_motion]. *)
Definition default_resolution : R := PI / 6.

End DubinsRRT.

(** ** Python errors and indexing *)

Inductive PyError : Type :=
| ValueError
| IndexError.

(** Outcome of fallible code; [OutOfFuel] stands for a [while] loop that was
    still running when the step budget of the model ended. *)
Inductive result (A : Type) : Type :=
| Ok (a : A)
| Raise (e : PyError)
| OutOfFuel.

Arguments Ok {A} a.
Arguments Raise {A} e.
Arguments OutOfFuel {A}.

Definition bind {A B : Type} (r : result A) (f : A -> result B) : result B :=
  match r with
  | Ok a => f a
  | Raise e => Raise e
  | OutOfFuel => OutOfFuel
  end.

Notation "x <- r ;; k" := (bind r (fun x => k))
  (at level 61, r at next level, right associativity).

(** [l[i]] for an index [i >= 0]. *)
Definition getitem {A : Type} (l : list A) (i : nat) : result A :=
  match nth_error l i with
  | Some a => Ok a
  | None => Raise IndexError
  end.

Fixpoint list_set {A : Type} (l : list A) (i : nat) (a : A) : list A :=
  match l, i with
  | [], _ => []
  | _ :: t, O => a :: t
  | h :: t, S j => h :: list_set t j a
  end.

(** [l[i] = a] for an index [i >= 0]. *)
Definition setitem {A : Type} (l : list A) (i : nat) (a : A) : result (list A) :=
  if (i <? length l)%nat then Ok (list_set l i a) else Raise IndexError.

(** [np.zeros((rows, state_dim))]. *)
Definition np_zeros (rows : Z) (state_dim : nat) : result (list State) :=
  if (rows <? 0)%Z then Raise ValueError
  else Ok (repeat (zeros state_dim) (Z.to_nat rows)).

(** [-np.ones(rows, dtype=int)]. *)
Definition np_minus_ones (rows : Z) : result (list Z) :=
  if (rows <? 0)%Z then Raise ValueError
  else Ok (repeat (-1)%Z (Z.to_nat rows)).

(** [range(1, stop)]. *)
Definition range1 (stop : Z) : list nat := seq 1 (Z.to_nat stop - 1).

(** [xrange(pathlen, 0, -1)]. *)
Definition xrange_down (pathlen : nat) : list nat := rev (seq 1 pathlen).

(** ** The random source *)

(** The global generator of [np.random]: [uniform lo hi] is the scalar draw
    [np.random.uniform(lo, hi)], [uniform_box lo hi d] the draw of a vector of
    shape [(d,)], and [seed] is [np.random.seed]. *)
Record RandomSource : Type := {
  rng : Type;
  seed : Z -> rng;
  uniform : R -> R -> rng -> R * rng;
  uniform_box : State -> State -> nat -> rng -> State * rng
}.

Inductive Draw : Type :=
| DrawScalar (z : R)
| DrawBox (x : State).

Inductive DrawKind : Type := Coin | Box.

Definition draw_kind (d : Draw) : DrawKind :=
  match d with
  | DrawScalar _ => Coin
  | DrawBox _ => Box
  end.

(** The generator state together with the log of the draws made so far. *)
Record World (RS : RandomSource) : Type := {
  gen : rng RS;
  draws : list Draw
}.

Arguments gen {RS} w.
Arguments draws {RS} w.

Definition np_random_seed {RS : RandomSource} (s : Z) (w : World RS) : World RS :=
  {| gen := seed RS s; draws := draws w |}.

Definition np_random_uniform {RS : RandomSource} (lo hi : R) (w : World RS)
  : R * World RS :=
  let '(z, g) := uniform RS lo hi (gen w) in
  (z, {| gen := g; draws := draws w ++ [DrawScalar z] |}).

Definition np_random_uniform_box {RS : RandomSource} (lo hi : State) (d : nat)
           (w : World RS) : State * World RS :=
  let '(x, g) := uniform_box RS lo hi d (gen w) in
  (x, {| gen := g; draws := draws w ++ [DrawBox x] |}).

(** ** RRT: the planning problem and the search driver *)

Module RRT.

Record Problem : Type := {
  statespace_lo : State;
  statespace_hi : State;
  x_init : State;
  x_goal : State;
  obstacles : list Segment
}.

(** The three methods a subclass of [RRT] overrides. *)
Class Dynamics : Type := {
  is_free_motion : list Segment -> State -> State -> bool;
  find_nearest : list State -> State -> nat;
  steer_towards : State -> State -> R -> State
}.

(** The planning tree and the outputs of [solve]. *)
Record SolveState : Type := {
  V : list State;
  P : list Z;
  n : Z;
  success : bool;
  solution_path : list State
}.

(** The [while stateidx > -1] loop of [soln_path]; [fuel] bounds the number
    of times its body runs. *)
Fixpoint walk_parents (fuel : nat) (V : list State) (P : list Z)
         (stateidx : Z) (entire_path : list State) : result (list State) :=
  if (stateidx >? -1)%Z then
    match fuel with
    | O => OutOfFuel
    | S fuel' =>
        row <- getitem V (Z.to_nat stateidx) ;;
        parent <- getitem P (Z.to_nat stateidx) ;;
        walk_parents fuel' V P parent (entire_path ++ [row])
    end
  else Ok entire_path.

(** The [for idx in xrange(pathlen, 0, -1)] loop of [soln_path]. *)
Fixpoint build_path (entire_path : list State) (idxs : list nat)
         (soln : list State) : result (list State) :=
  match idxs with
  | [] => Ok soln
  | idx :: rest =>
      row <- getitem entire_path (idx - 1) ;;
      build_path entire_path rest (soln ++ [row])
  end.

Definition soln_path (fuel : nat) (V : list State) (P : list Z) (lastidx : Z)
  : result (list State) :=
  entire_path <- walk_parents fuel V P lastidx [] ;;
  build_path entire_path (xrange_down (length entire_path)) [].

Section Solve.
Context {D : Dynamics} {RS : RandomSource}.
Variable self : Problem.
(** The budget of [soln_path] for the runs of its [while] loop. *)
Variable fuel : nat.
Variable eps : R.
Variable goal_bias : R.

(** Lines 103 to 114: the body of the loop once [xrand] is fixed.  The
    boolean tells whether the loop is left by [break]. *)
Definition extend (k : nat) (xrand : State) (st : SolveState)
  : result (SolveState * bool) :=
  let xnearidx := find_nearest (V st) xrand in
  xnear <- getitem (V st) xnearidx ;;
  let xnew := steer_towards xnear xrand eps in
  if is_free_motion (obstacles self) xnear xnew then
    V' <- setitem (V st) k xnew ;;
    P' <- setitem (P st) k (Z.of_nat xnearidx) ;;
    if array_equal xnew (x_goal self) then
      path <- soln_path fuel V' P' (Z.of_nat k) ;;
      Ok ({| V := V'; P := P'; n := n st;
             success := true; solution_path := path |}, true)
    else
      Ok ({| V := V'; P := P'; n := n st;
             success := success st; solution_path := solution_path st |}, false)
  else Ok (st, false).

(** Lines 97 to 101: the two draws and the goal bias. *)
Definition sample (w : World RS) : State * World RS :=
  let '(z, w1) := np_random_uniform 0 1 w in
  let '(xrand, w2) :=
    np_random_uniform_box (statespace_lo self) (statespace_hi self)
                          (length (x_init self)) w1 in
  (if Rltb z goal_bias then x_goal self else xrand, w2).

Definition iteration (k : nat) (st : SolveState) (w : World RS)
  : result (SolveState * bool) * World RS :=
  let '(xrand, w') := sample w in
  (extend k xrand st, w').

Fixpoint for_loop (ks : list nat) (st : SolveState) (w : World RS)
  : result SolveState * World RS :=
  match ks with
  | [] => (Ok st, w)
  | k :: rest =>
      match iteration k st w with
      | (Ok (st', true), w') => (Ok st', w')
      | (Ok (st', false), w') => for_loop rest st' w'
      | (Raise e, w') => (Raise e, w')
      | (OutOfFuel, w') => (OutOfFuel, w')
      end
  end.

(** Lines 56 to 67: the tree before the first iteration. *)
Definition init (max_iters : Z) : result SolveState :=
  let state_dim := length (x_init self) in
  V0 <- np_zeros max_iters state_dim ;;
  V1 <- setitem V0 0 (x_init self) ;;
  P0 <- np_minus_ones max_iters ;;
  Ok {| V := V1; P := P0; n := 1; success := false; solution_path := [] |}.

Definition solve (max_iters : Z) (w : World RS) : result SolveState * World RS :=
  match init max_iters with
  | Ok st => for_loop (range1 max_iters) st w
  | Raise e => (Raise e, w)
  | OutOfFuel => (OutOfFuel, w)
  end.

End Solve.

End RRT.

(** The holonomic planner as an instance of the driver's interface. *)
#[export] Instance geometric_dynamics (line_line_intersection : Segment -> Segment -> bool)
  : RRT.Dynamics := {|
  RRT.is_free_motion := GeometricRRT.is_free_motion line_line_intersection;
  RRT.find_nearest := GeometricRRT.find_nearest;
  RRT.steer_towards := GeometricRRT.steer_towards
|}.

(** A deterministic stand-in for the generator, used to run the planner on
    explicit inputs: the state counts the draws, and every draw returns the
    lower end of its range. *)
Definition low_end_source : RandomSource := {|
  rng := nat;
  seed := fun s => Z.to_nat s;
  uniform := fun lo _ g => (lo, S g);
  uniform_box := fun lo _ _ g => (lo, S g)
|}.

(** A test of intersection for a world without walls. *)
Definition no_intersection : Segment -> Segment -> bool := fun _ _ => false.

(** An instance with the goal at distance 1 of the root. *)
Definition near_goal_problem : RRT.Problem := {|
  RRT.statespace_lo := [-5; -5];
  RRT.statespace_hi := [5; 5];
  RRT.x_init := [0; 1];
  RRT.x_goal := [0; 2];
  RRT.obstacles := []
|}.

Definition fresh_world : World low_end_source :=
  Build_World low_end_source 0%nat [].

(** ** Reading a tree *)

(** [P[i]], and [V[i,:]]. *)
Definition parent (P : list Z) (i : nat) : Z := nth i P (-1)%Z.
Definition row (V : list State) (i : nat) : State := nth i V [].

(** Slot [i] holds a state of the tree: it is the root, or a parent was
    recorded for it (the test [P[i] >= 0] of [plot_tree]). *)
Definition occupied (P : list Z) (i : nat) : Prop :=
  i = 0%nat \/ ((i < length P)%nat /\ parent P i <> (-1)%Z).

(** The number of states of the tree: the root and the slots with a parent. *)
Definition tree_size (P : list Z) : Z :=
  1 + Z.of_nat (length (filter (fun p => negb (p =? -1)%Z) (tl P))).

(** [P[0] = -1], and the parent of an occupied slot [i > 0] is an occupied
    slot before [i]. *)
Definition parents_backward (P : list Z) : Prop :=
  parent P 0 = (-1)%Z /\
  forall i, (0 < i < length P)%nat -> parent P i <> (-1)%Z ->
    exists p, parent P i = Z.of_nat p /\ (p < i)%nat /\ occupied P p.

(** The chain of parent links that starts at slot [i] and stops at the slot
    without parent. *)
Inductive chain (P : list Z) : nat -> list nat -> Prop :=
| chain_root i : parent P i = (-1)%Z -> chain P i [i]
| chain_link i p l : parent P i = Z.of_nat p -> chain P p l -> chain P i (i :: l).

(** A tree with occupied prefix [0..n-1]. *)
Record prefix_tree (n : nat) (V : list State) (P : list Z) : Prop := {
  pt_nonempty : (0 < n)%nat;
  pt_V : (n <= length V)%nat;
  pt_P : (n <= length P)%nat;
  pt_root : parent P 0 = (-1)%Z;
  pt_links : forall i, (0 < i < n)%nat -> (0 <= parent P i < Z.of_nat i)%Z
}.

(** [l] is the log of [j] rounds of one scalar draw followed by one box draw. *)
Definition coin_box_rounds (j : nat) (l : list Draw) : Prop :=
  map draw_kind l = concat (repeat [Coin; Box] j).

(** What the driver relies on: the nearest index is the default 0 or the
    index of a row that is not a row of zeros. *)
Class NearestWritten (D : RRT.Dynamics) : Prop :=
  nearest_written : forall V x,
    RRT.find_nearest V x = 0%nat \/
    ((RRT.find_nearest V x < length V)%nat /\
     forall d, row V (RRT.find_nearest V x) <> zeros d).

Section Invariant.
Variable self : RRT.Problem.
Variable m : nat.

(** The shape of the tree at any time. *)
Record tree_ok (st : RRT.SolveState) : Prop := {
  ok_lenV : length (RRT.V st) = m;
  ok_lenP : length (RRT.P st) = m;
  ok_n : RRT.n st = 1%Z;
  ok_rootV : row (RRT.V st) 0 = RRT.x_init self;
  ok_links : parents_backward (RRT.P st);
  ok_gaps : forall i, (0 < i < m)%nat -> parent (RRT.P st) i = (-1)%Z ->
              row (RRT.V st) i = zeros (length (RRT.x_init self))
}.

(** No state inserted in a slot of [1..k-1] is the goal. *)
Definition no_goal_below (k : nat) (st : RRT.SolveState) : Prop :=
  forall i, (0 < i < k)%nat -> parent (RRT.P st) i <> (-1)%Z ->
    row (RRT.V st) i <> RRT.x_goal self.

(** The slots from [k] on were never written. *)
Definition unwritten_from (k : nat) (st : RRT.SolveState) : Prop :=
  forall i, (k <= i < m)%nat ->
    row (RRT.V st) i = zeros (length (RRT.x_init self)) /\
    parent (RRT.P st) i = (-1)%Z.

(** The state of the loop before iteration [k]. *)
Record running (k : nat) (st : RRT.SolveState) : Prop := {
  run_tree : tree_ok st;
  run_k : (1 <= k <= m)%nat;
  run_unwritten : unwritten_from k st;
  run_no_goal : no_goal_below k st;
  run_success : RRT.success st = false;
  run_path : RRT.solution_path st = []
}.

(** The loop ended without reaching the goal. *)
Definition exhausted (st : RRT.SolveState) : Prop :=
  RRT.success st = false /\ RRT.solution_path st = [] /\ no_goal_below m st.

(** The loop was left at iteration [k], which inserted the goal. *)
Definition succeeded (fuel : nat) (k : nat) (st : RRT.SolveState) : Prop :=
  RRT.success st = true /\
  (1 <= k < m)%nat /\
  parent (RRT.P st) k <> (-1)%Z /\
  row (RRT.V st) k = RRT.x_goal self /\
  no_goal_below k st /\
  unwritten_from (S k) st /\
  RRT.soln_path fuel (RRT.V st) (RRT.P st) (Z.of_nat k) = Ok (RRT.solution_path st).
End Invariant.

(** ** What the nearest-neighbour loop computes *)

Section Nearest.
Variable x : State.

(** The distance of [find_nearest] from row [j] of [V] to the query. *)
Definition query_distance (V : list State) (j : nat) : R := norm (vsub (row V j) x).

(** Row [r] is the first of the rows of [V] with a norm other than 0 that
    are nearest to the query. *)
Definition first_nearest_nonzero (V : list State) (r : nat) : Prop :=
  (r < length V)%nat /\
  norm (row V r) <> 0 /\
  (forall j, (j < length V)%nat -> norm (row V j) <> 0 ->
             query_distance V r <= query_distance V j) /\
  (forall j, (j < r)%nat -> norm (row V j) <> 0 ->
             query_distance V r < query_distance V j).

(** The state of the loop of [GeometricRRT.find_nearest] after the rows
    [seen]. *)
Definition nearest_state (seen : list State) (threshold : xreal) (nearidx : nat) : Prop :=
  (threshold = PInf /\ nearidx = 0%nat /\
   forall j, (j < length seen)%nat -> norm (row seen j) = 0) \/
  (threshold = Fin (query_distance seen nearidx) /\ first_nearest_nonzero seen nearidx).
End Nearest.

(** ** Edges and paths of a tree *)

(** Every state of [path] and the next one are related by [E]. *)
Fixpoint linked (E : State -> State -> Prop) (path : list State) : Prop :=
  match path with
  | a :: ((b :: _) as rest) => E a b /\ linked E rest
  | _ => True
  end.

(** Every slot with a recorded parent is related to its parent by [E]. *)
Definition edges_ok (E : State -> State -> Prop) (V : list State) (P : list Z) : Prop :=
  forall i p, (0 < i < length P)%nat -> parent P i = Z.of_nat p ->
    E (row V p) (row V i).

(** The list comprehension of [GeometricRRT.plot_tree]:
    [(V[P[i],:], V[i,:]) for i in range(V.shape[0]) if P[i] >= 0]. *)
Fixpoint plot_tree_loop (V : list State) (P : list Z) (idxs : list nat)
  : result (list Segment) :=
  match idxs with
  | [] => Ok []
  | i :: rest =>
      p <- getitem P i ;;
      if (p >=? 0)%Z then
        a <- getitem V (Z.to_nat p) ;;
        b <- getitem V i ;;
        segs <- plot_tree_loop V P rest ;;
        Ok ((a, b) :: segs)
      else plot_tree_loop V P rest
  end.

Definition plot_tree_segments (V : list State) (P : list Z) : result (list Segment) :=
  plot_tree_loop V P (seq 0 (length V)).

(** ** What the Dubins nearest-neighbour loop computes *)

Section DubinsNearest.
Variable path_length : State -> State -> R -> R.
Variable turning_radius : R.
Variable x : State.

(** The path length of [DubinsRRT.find_nearest] from row [j] of [V] to the
    query. *)
Definition dubins_distance (V : list State) (j : nat) : R :=
  path_length (row V j) x turning_radius.

(** The row passes the test of lines 184 and 185: one of its three first
    coordinates is not 0. *)
Definition dubins_kept (rw : State) : Prop :=
  ~ (DubinsRRT.coord rw 0 = 0 /\ DubinsRRT.coord rw 1 = 0 /\ DubinsRRT.coord rw 2 = 0).

(** Row [r] is the first of the nearest rows among the kept rows of [V], and
    its path length is below 10000. *)
Definition dubins_first_nearest (V : list State) (r : nat) : Prop :=
  (r < length V)%nat /\
  dubins_kept (row V r) /\
  dubins_distance V r < 10000 /\
  (forall j, (j < length V)%nat -> dubins_kept (row V j) ->
             dubins_distance V r <= dubins_distance V j) /\
  (forall j, (j < r)%nat -> dubins_kept (row V j) ->
             dubins_distance V r < dubins_distance V j).

(** The state of the loop of [DubinsRRT.find_nearest] after the rows [seen]. *)
Definition dubins_nearest_state (seen : list State) (threshold : R) (nearidx : nat) : Prop :=
  (threshold = 10000 /\ nearidx = 0%nat /\
   forall j, (j < length seen)%nat -> dubins_kept (row seen j) ->
             10000 <= dubins_distance seen j) \/
  (threshold = dubins_distance seen nearidx /\ dubins_first_nearest seen nearidx).
End DubinsNearest.

(** ** Dimensions *)




(** ** The planner on a store of arrays

    The arrays of a run as objects of a store, with the references that the
    code passes around: [self.x_goal] bound to [xrand], [y] returned by
    [steer_towards], the views [V[i,:]].  A write changes the object it names
    and every reference to that object sees it.  The methods of
    [GeometricRRT] read their arguments and write nothing. *)

Module Store.

Inductive Obj : Type :=
| Vector (v : State)
| Matrix (rows : list State)
| IntArray (l : list Z).

(** An object is named by its position; an allocation adds one at the end. *)
Definition Heap : Type := list Obj.

(** A whole vector, or the view [V[i,:]] of a row of a matrix. *)
Inductive Ref : Type :=
| Whole (id : nat)
| RowView (id : nat) (i : nat).

Definition alloc (h : Heap) (o : Obj) : nat * Heap := (length h, h ++ [o]).

Definition matrix (h : Heap) (id : nat) : list State :=
  match nth_error h id with
  | Some (Matrix rows) => rows
  | _ => []
  end.

Definition ints (h : Heap) (id : nat) : list Z :=
  match nth_error h id with
  | Some (IntArray l) => l
  | _ => []
  end.

Definition contents (h : Heap) (r : Ref) : State :=
  match r with
  | Whole id =>
      match nth_error h id with
      | Some (Vector v) => v
      | _ => []
      end
  | RowView id i => nth i (matrix h id) []
  end.

(** [M[k,:] = v]: the values of [v] are copied into row [k] of the matrix. *)
Definition set_row (h : Heap) (id k : nat) (v : State) : result Heap :=
  if (k <? length (matrix h id))%nat
  then Ok (list_set h id (Matrix (list_set (matrix h id) k v)))
  else Raise IndexError.

(** [A[k] = z]. *)
Definition set_int (h : Heap) (id k : nat) (z : Z) : result Heap :=
  if (k <? length (ints h id))%nat
  then Ok (list_set h id (IntArray (list_set (ints h id) k z)))
  else Raise IndexError.

(** The object [self]: its fields hold references to arrays. *)
Record Instance : Type := {
  statespace_lo : nat;
  statespace_hi : nat;
  x_init : nat;
  x_goal : nat;
  obstacles : list Segment
}.

(** The problem that the fields of [self] denote in a store. *)
Definition problem_of (h : Heap) (self : Instance) : RRT.Problem := {|
  RRT.statespace_lo := contents h (Whole (statespace_lo self));
  RRT.statespace_hi := contents h (Whole (statespace_hi self));
  RRT.x_init := contents h (Whole (x_init self));
  RRT.x_goal := contents h (Whole (x_goal self));
  RRT.obstacles := obstacles self
|}.

(** The local variables of [solve]. *)
Record Locals : Type := {
  V : nat;
  P : nat;
  n : Z;
  success : bool;
  solution_path : list Ref
}.

(** What the local variables denote in a store. *)
Definition view (h : Heap) (loc : Locals) : RRT.SolveState := {|
  RRT.V := matrix h (V loc);
  RRT.P := ints h (P loc);
  RRT.n := n loc;
  RRT.success := success loc;
  RRT.solution_path := map (contents h) (solution_path loc)
|}.

Definition outcome (h : Heap) (r : result Locals) : result RRT.SolveState :=
  match r with
  | Ok loc => Ok (view h loc)
  | Raise e => Raise e
  | OutOfFuel => OutOfFuel
  end.

(** [soln_path]: the path is a list of views of rows of [V]. *)
Fixpoint walk_parents (fuel : nat) (h : Heap) (V P : nat)
         (stateidx : Z) (entire_path : list Ref) : result (list Ref) :=
  if (stateidx >? -1)%Z then
    match fuel with
    | O => OutOfFuel
    | S fuel' =>
        if (Z.to_nat stateidx <? length (matrix h V))%nat then
          parent <- getitem (ints h P) (Z.to_nat stateidx) ;;
          walk_parents fuel' h V P parent (entire_path ++ [RowView V (Z.to_nat stateidx)])
        else Raise IndexError
    end
  else Ok entire_path.

Fixpoint build_path (entire_path : list Ref) (idxs : list nat) (soln : list Ref)
  : result (list Ref) :=
  match idxs with
  | [] => Ok soln
  | idx :: rest =>
      r <- getitem entire_path (idx - 1) ;;
      build_path entire_path rest (soln ++ [r])
  end.

Definition soln_path (fuel : nat) (h : Heap) (V P : nat) (lastidx : Z)
  : result (list Ref) :=
  entire_path <- walk_parents fuel h V P lastidx [] ;;
  build_path entire_path (xrange_down (length entire_path)) [].

Section Solve.
Context {RS : RandomSource}.
Variable line_line_intersection : Segment -> Segment -> bool.
Variable self : Instance.
Variable fuel : nat.
Variable eps : R.
Variable goal_bias : R.

(** [GeometricRRT.steer_towards]: [y] itself, or a new array. *)
Definition steer_towards (h : Heap) (x y : Ref) : Ref * Heap :=
  let mag := norm (vsub (contents h y) (contents h x)) in
  if Rltb mag eps then (y, h)
  else
    let '(id, h') :=
      alloc h (Vector (vadd (contents h x)
                            (vscale (eps / mag) (vsub (contents h y) (contents h x))))) in
    (Whole id, h').

(** Lines 103 to 114. *)
Definition extend (k : nat) (xrand : Ref) (loc : Locals) (h : Heap)
  : result (Locals * bool) * Heap :=
  let xnearidx := GeometricRRT.find_nearest (matrix h (V loc)) (contents h xrand) in
  if (xnearidx <? length (matrix h (V loc)))%nat then
    let xnear := RowView (V loc) xnearidx in
    let '(xnew, h1) := steer_towards h xnear xrand in
    if GeometricRRT.is_free_motion line_line_intersection (obstacles self)
         (contents h1 xnear) (contents h1 xnew)
    then
      match set_row h1 (V loc) k (contents h1 xnew) with
      | Ok h2 =>
          match set_int h2 (P loc) k (Z.of_nat xnearidx) with
          | Ok h3 =>
              if array_equal (contents h3 xnew) (contents h3 (Whole (x_goal self))) then
                match soln_path fuel h3 (V loc) (P loc) (Z.of_nat k) with
                | Ok path =>
                    (Ok ({| V := V loc; P := P loc; n := n loc;
                            success := true; solution_path := path |}, true), h3)
                | Raise e => (Raise e, h3)
                | OutOfFuel => (OutOfFuel, h3)
                end
              else (Ok (loc, false), h3)
          | Raise e => (Raise e, h2)
          | OutOfFuel => (OutOfFuel, h2)
          end
      | Raise e => (Raise e, h1)
      | OutOfFuel => (OutOfFuel, h1)
      end
    else (Ok (loc, false), h1)
  else (Raise IndexError, h).

(** Lines 97 to 101: the sample is a new array; the bias binds [xrand] to the
    array of the goal. *)
Definition sample (h : Heap) (w : World RS) : Ref * Heap * World RS :=
  let '(z, w1) := np_random_uniform 0 1 w in
  let '(x, w2) :=
    np_random_uniform_box (contents h (Whole (statespace_lo self)))
                          (contents h (Whole (statespace_hi self)))
                          (length (contents h (Whole (x_init self)))) w1 in
  let '(id, h1) := alloc h (Vector x) in
  (if Rltb z goal_bias then Whole (x_goal self) else Whole id, h1, w2).

Definition iteration (k : nat) (loc : Locals) (h : Heap) (w : World RS)
  : result (Locals * bool) * Heap * World RS :=
  let '(xrand, h1, w') := sample h w in
  let '(r, h2) := extend k xrand loc h1 in
  (r, h2, w').

Fixpoint for_loop (ks : list nat) (loc : Locals) (h : Heap) (w : World RS)
  : result Locals * Heap * World RS :=
  match ks with
  | [] => (Ok loc, h, w)
  | k :: rest =>
      match iteration k loc h w with
      | (Ok (loc', true), h', w') => (Ok loc', h', w')
      | (Ok (loc', false), h', w') => for_loop rest loc' h' w'
      | (Raise e, h', w') => (Raise e, h', w')
      | (OutOfFuel, h', w') => (OutOfFuel, h', w')
      end
  end.

(** Lines 56 to 67: [V] and [P] are new arrays. *)
Definition init (max_iters : Z) (h : Heap) : result Locals * Heap :=
  let state_dim := length (contents h (Whole (x_init self))) in
  match np_zeros max_iters state_dim with
  | Ok rows =>
      let '(Vid, h1) := alloc h (Matrix rows) in
      match set_row h1 Vid 0 (contents h1 (Whole (x_init self))) with
      | Ok h2 =>
          match np_minus_ones max_iters with
          | Ok l =>
              let '(Pid, h3) := alloc h2 (IntArray l) in
              (Ok {| V := Vid; P := Pid; n := 1; success := false; solution_path := [] |}, h3)
          | Raise e => (Raise e, h2)
          | OutOfFuel => (OutOfFuel, h2)
          end
      | Raise e => (Raise e, h1)
      | OutOfFuel => (OutOfFuel, h1)
      end
  | Raise e => (Raise e, h)
  | OutOfFuel => (OutOfFuel, h)
  end.

Definition solve (max_iters : Z) (h : Heap) (w : World RS)
  : result Locals * Heap * World RS :=
  match init max_iters h with
  | (Ok loc, h1) => for_loop (range1 max_iters) loc h1 w
  | (Raise e, h1) => (Raise e, h1, w)
  | (OutOfFuel, h1) => (OutOfFuel, h1, w)
  end.
End Solve.

(** The fields of [self] name vectors of the store. *)
Definition valid_instance (h : Heap) (self : Instance) : Prop :=
  forall id, In id [statespace_lo self; statespace_hi self; x_init self; x_goal self] ->
    exists v, nth_error h id = Some (Vector v).

(** The objects of [h] are the same in [h']. *)
Definition extends (h h' : Heap) : Prop :=
  forall id o, nth_error h id = Some o -> nth_error h' id = Some o.

(** The local variables [V] and [P] name a matrix and an array of integers of
    the store, and no path has been built yet. *)
Definition typed (h : Heap) (loc : Locals) : Prop :=
  (exists rows, nth_error h (V loc) = Some (Matrix rows)) /\
  (exists l, nth_error h (P loc) = Some (IntArray l)) /\
  solution_path loc = [].

(** The objects of [h] other than [V] and [P] are the same in [h']. *)
Definition frame (V P : nat) (h h' : Heap) : Prop :=
  forall id o, nth_error h id = Some o -> id <> V -> id <> P -> nth_error h' id = Some o.

End Store.

(** The outcome of fallible code, seen through [f]. *)
Definition result_map {A B : Type} (f : A -> B) (r : result A) : result B :=
  match r with
  | Ok a => Ok (f a)
  | Raise e => Raise e
  | OutOfFuel => OutOfFuel
  end.


(** A store that holds the four arrays of the fields of an instance, and the
    instance: the bounds, the root [0; 1] and the goal [0; 2]. *)
Definition near_goal_store : Store.Heap :=
  [Store.Vector [-5; -5]; Store.Vector [5; 5]; Store.Vector [0; 1]; Store.Vector [0; 2]].

Definition near_goal_instance : Store.Instance := {|
  Store.statespace_lo := 0;
  Store.statespace_hi := 1;
  Store.x_init := 2;
  Store.x_goal := 3;
  Store.obstacles := []
|}.

(** ** Steering over binary64 floats *)

Module Float64.
Import PrimFloat SpecFloat FloatOps.
Local Open Scope float_scope.

(** A numpy array of one axis and of dtype float64. *)
Definition Array : Type := list float.

(** An arithmetic operation of numpy on two arrays of one axis: component by
    component when the shapes agree; an array of one component is stretched
    to the shape of the other; any other pair of shapes raises ValueError. *)
Definition broadcast (op : float -> float -> float) (a b : Array) : result Array :=
  if (length a =? length b)%nat
  then Ok (map (fun p => op (fst p) (snd p)) (combine a b))
  else
    match a, b with
    | [a0], _ => Ok (map (op a0) b)
    | _, [b0] => Ok (map (fun c => op c b0) a)
    | _, _ => Raise ValueError
    end.

(** The sum of the squares from left to right, and its square root, every
    operation rounded: one way to compute [np.linalg.norm], which leaves the
    order of the sum to the library. *)
Definition norm_sequential (v : Array) : float :=
  sqrt (fold_left (fun acc c => acc + c * c) v 0).

Section Steer.
(** [np.linalg.norm] on an array of one axis. *)
Variable norm : Array -> float.

(** [GeometricRRT.steer_towards], lines 144 to 149. *)
Definition steer_towards (x y : Array) (eps : float) : result Array :=
  d <- broadcast sub y x ;;
  let mag := norm d in
  if mag <? eps then Ok y
  else
    d' <- broadcast sub y x ;;
    broadcast add x (map (mul (eps / mag)) d').
End Steer.

Section Nearest.
(** [np.linalg.norm] on an array of one axis. *)
Variable norm : Array -> float.

(** [GeometricRRT.find_nearest], lines 132 to 142: the loop over the rows of
    [V], with [rows] the rows not yet visited and [i] the index of the first
    of them. *)
Fixpoint nearest_loop (x : Array) (rows : list Array) (i : nat)
         (threshold : float) (nearidx : nat) : result nat :=
  match rows with
  | [] => Ok nearidx
  | row :: rest =>
      if norm row =? 0 then nearest_loop x rest (S i) threshold nearidx
      else
        d <- broadcast sub row x ;;
        let dist := norm d in
        if (dist <? threshold) && negb (threshold =? 0)
        then nearest_loop x rest (S i) dist i
        else nearest_loop x rest (S i) threshold nearidx
  end.

Definition find_nearest (V : list Array) (x : Array) : result nat :=
  nearest_loop x V 0 infinity 0.

(** Row [j] of [V], the rows that the loop does not skip, and the distance
    that the loop computes for a row. *)
Definition row (V : list Array) (j : nat) : Array := nth j V [].

Definition kept (V : list Array) (j : nat) : bool := negb (norm (row V j) =? 0).

Definition distance (x : Array) (V : list Array) (j : nat) : float :=
  norm (map (fun p => fst p - snd p) (combine (row V j) x)).

(** The rows of [V] have the shape of [x], and no computed distance is below
    zero. *)
Definition rows_of_shape (x : Array) (V : list Array) : bool :=
  forallb (fun r => (length r =? length x)%nat) V.

Definition distances_not_below_zero (x : Array) (V : list Array) : bool :=
  forallb (fun r => negb (norm (map (fun p => fst p - snd p) (combine r x)) <? 0)) V.

(** From slot [n] on, the rows of [V] have the computed norm 0, as the rows
    of the allocation that were never written. *)
Definition unwritten_from (n : nat) (V : list Array) : bool :=
  forallb (fun r => norm r =? 0) (skipn n V).

(** [r] is the first of the rows of least computed distance among the kept
    rows of [V]: its distance is below infinity, no kept row has a distance
    below it, and every kept row before it has a larger distance or NaN. *)
Definition first_nearest (x : Array) (V : list Array) (r : nat) : Prop :=
  (r < length V)%nat /\ kept V r = true /\
  (distance x V r <? infinity) = true /\
  (forall j, (j < length V)%nat -> kept V j = true ->
     (distance x V j <? distance x V r) = false) /\
  (forall j, (j < r)%nat -> kept V j = true ->
     (distance x V r <? distance x V j) = true \/
     (distance x V j =? distance x V j) = false).

(** What the loop holds after the rows [seen]: no kept row with a distance
    below infinity yet, or the first nearest of them and its distance. *)
Definition nearest_state (x : Array) (seen : list Array) (threshold : float)
           (nearidx : nat) : Prop :=
  (threshold = infinity /\ nearidx = 0%nat /\
   forall j, (j < length seen)%nat -> kept seen j = true ->
     (distance x seen j <? infinity) = false) \/
  (threshold = distance x seen nearidx /\ first_nearest x seen nearidx).
End Nearest.

(** The number that a float stands for; none for an infinity and for NaN. *)
Definition exact (f : float) : option QArith_base.Q :=
  match Prim2SF f with
  | S754_zero _ => Some (QArith_base.inject_Z 0)
  | S754_finite s m e =>
      Some (QArith_base.Qmult
              (QArith_base.inject_Z (if s then Z.neg m else Z.pos m))
              (QArith_base.Qpower (QArith_base.inject_Z 2) e))
  | _ => None
  end.




End Float64.
(** * Properties *)

(** ** Numbers and vectors *)

Lemma Rltb_true a b : a < b -> Rltb a b = true.
Proof. intros H. unfold Rltb. destruct (Rlt_dec a b); [reflexivity | contradiction]. Qed.

Lemma Rltb_false a b : ~ a < b -> Rltb a b = false.
Proof. intros H. unfold Rltb. destruct (Rlt_dec a b); [contradiction | reflexivity]. Qed.

Lemma Rltb_iff a b : Rltb a b = true <-> a < b.
Proof. unfold Rltb. destruct (Rlt_dec a b); split; intros; try easy. Qed.

Lemma Reqb_true a b : a = b -> Reqb a b = true.
Proof. intros H. unfold Reqb. destruct (Req_dec_T a b); [reflexivity | contradiction]. Qed.

Lemma Reqb_false a b : a <> b -> Reqb a b = false.
Proof. intros H. unfold Reqb. destruct (Req_dec_T a b); [contradiction | reflexivity]. Qed.

Lemma Reqb_iff a b : Reqb a b = true <-> a = b.
Proof. unfold Reqb. destruct (Req_dec_T a b); split; intros; try easy. Qed.

Lemma norm_nonneg v : 0 <= norm v.
Proof. apply sqrt_pos. Qed.

Lemma sumsq_zeros d : sumsq (zeros d) = 0.
Proof. induction d as [|d IH]; simpl; [reflexivity|]. unfold zeros in IH. rewrite IH. ring. Qed.

Lemma norm_zeros d : norm (zeros d) = 0.
Proof. unfold norm. rewrite sumsq_zeros. apply sqrt_0. Qed.

Lemma sumsq_vscale c v : sumsq (vscale c v) = c * c * sumsq v.
Proof.
  induction v as [|u v IH]; simpl; [ring|].
  fold (vscale c v). rewrite IH. ring.
Qed.

Lemma norm_vscale c v : norm (vscale c v) = Rabs c * norm v.
Proof.
  unfold norm. rewrite sumsq_vscale.
  rewrite sqrt_mult_alt by (pose proof (Rle_0_sqr c) as Hc; unfold Rsqr in Hc; exact Hc).
  f_equal. change (c * c) with (Rsqr c). apply sqrt_Rsqr_abs.
Qed.

Lemma vsub_vadd_vscale c x y :
  length x = length y ->
  vsub (vadd x (vscale c (vsub y x))) x = vscale c (vsub y x).
Proof.
  unfold vsub, vadd, vscale.
  revert y. induction x as [|u x IH]; intros [|v y] H; simpl in *; try congruence.
  f_equal; [ring|]. apply IH. congruence.
Qed.

Lemma array_equal_iff a b : array_equal a b = true <-> a = b.
Proof.
  revert b. induction a as [|u a IH]; intros [|v b]; simpl; split; intros H;
    try reflexivity; try discriminate.
  - apply andb_true_iff in H. destruct H as [H1 H2].
    apply Reqb_iff in H1. apply IH in H2. congruence.
  - injection H as -> ->. apply andb_true_iff. split.
    + now apply Reqb_true.
    + now apply IH.
Qed.

(** ** GeometricRRT *)

Lemma steer_near (x y : State) (eps : R) :
  norm (vsub y x) < eps -> GeometricRRT.steer_towards x y eps = y.
Proof. intros H. unfold GeometricRRT.steer_towards. now rewrite Rltb_true. Qed.

Lemma steer_far (x y : State) (eps : R) :
  ~ norm (vsub y x) < eps ->
  GeometricRRT.steer_towards x y eps =
    vadd x (vscale (eps / norm (vsub y x)) (vsub y x)).
Proof. intros H. unfold GeometricRRT.steer_towards. now rewrite Rltb_false. Qed.

Lemma steer_far_distance (x y : State) (eps : R) :
  0 < eps -> length x = length y -> ~ norm (vsub y x) < eps ->
  norm (vsub (GeometricRRT.steer_towards x y eps) x) = eps.
Proof.
  intros Heps Hlen Hge. rewrite steer_far by assumption.
  rewrite vsub_vadd_vscale by assumption. rewrite norm_vscale.
  assert (Hratio : 0 < eps / norm (vsub y x)) by (apply Rdiv_lt_0_compat; lra).
  rewrite Rabs_pos_eq by lra. field. lra.
Qed.

(** C8: for the holonomic model, [is_free_motion obstacles x1 x2] is false
    exactly when the segment from [x1] to [x2] intersects one of the walls,
    and true when it crosses none; [Intersects] is what the intersection test
    of [utils] is taken to decide. *)
Theorem is_free_motion_iff
        (line_line_intersection : Segment -> Segment -> bool)
        (Intersects : Segment -> Segment -> Prop)
        (obstacles : list Segment) (x1 x2 : State) :
  (forall m l, line_line_intersection m l = true <-> Intersects m l) ->
  (GeometricRRT.is_free_motion line_line_intersection obstacles x1 x2 = false <->
   exists line, In line obstacles /\ Intersects (x1, x2) line) /\
  (GeometricRRT.is_free_motion line_line_intersection obstacles x1 x2 = true <->
   forall line, In line obstacles -> ~ Intersects (x1, x2) line).
Proof.
  intros Hspec. induction obstacles as [|line rest [IHf IHt]]; simpl.
  - split; split; try discriminate; try reflexivity.
    + intros [l [[] _]].
    + intros _ l [].
  - destruct (line_line_intersection (x1, x2) line) eqn:Hl.
    + split; split; try discriminate; try reflexivity.
      * intros _. exists line. split; [now left|]. now apply Hspec.
      * intros H. exfalso. apply (H line); [now left|]. now apply Hspec.
    + assert (Hn : ~ Intersects (x1, x2) line).
      { intros H. apply Hspec in H. congruence. }
      split; split.
      * intros H. apply IHf in H. destruct H as [l [Hin Hi]]. exists l. split; [now right|exact Hi].
      * intros [l [[<-|Hin] Hi]]; [contradiction|]. apply IHf. now exists l.
      * intros H l [<-|Hin]; [exact Hn|]. now apply IHt.
      * intros H. apply IHt. intros l Hin. apply H. now right.
Qed.

(** ** Lists and indexing *)

Lemma list_set_length {A} (l : list A) i a : length (list_set l i a) = length l.
Proof.
  revert i. induction l as [|h t IH]; intros [|j]; simpl; try reflexivity.
  now rewrite IH.
Qed.

Lemma nth_list_set_eq {A} (l : list A) i a d :
  (i < length l)%nat -> nth i (list_set l i a) d = a.
Proof.
  revert i. induction l as [|h t IH]; intros [|j] H; simpl in *; try lia; try reflexivity.
  apply IH. lia.
Qed.

Lemma nth_list_set_neq {A} (l : list A) i j a d :
  i <> j -> nth j (list_set l i a) d = nth j l d.
Proof.
  revert i j. induction l as [|h t IH]; intros [|i] [|j] H; simpl; try reflexivity; try congruence.
  apply IH. congruence.
Qed.

Lemma getitem_nth {A} (l : list A) i d :
  (i < length l)%nat -> getitem l i = Ok (nth i l d).
Proof.
  intros H. unfold getitem.
  destruct (nth_error l i) eqn:E.
  - f_equal. symmetry. now apply nth_error_nth.
  - apply nth_error_None in E. lia.
Qed.

Lemma setitem_ok {A} (l : list A) i a :
  (i < length l)%nat -> setitem l i a = Ok (list_set l i a).
Proof.
  intros H. unfold setitem. apply Nat.ltb_lt in H. now rewrite H.
Qed.

Lemma firstn_succ_nth {A} (l : list A) j d :
  (j < length l)%nat -> firstn (S j) l = firstn j l ++ [nth j l d].
Proof.
  revert j. induction l as [|h t IH]; intros [|j] H; simpl in *; try lia; try reflexivity.
  f_equal. apply IH. lia.
Qed.

Lemma last_In {A} (l : list A) d : l <> [] -> In (last l d) l.
Proof.
  induction l as [|a l IH]; intros H; [congruence|].
  destruct l as [|b l']; [now left|].
  right. apply IH. discriminate.
Qed.

(** ** soln_path *)

Lemma build_path_firstn (entire_path : list State) j soln :
  (j <= length entire_path)%nat ->
  RRT.build_path entire_path (xrange_down j) soln = Ok (soln ++ rev (firstn j entire_path)).
Proof.
  unfold xrange_down. revert soln. induction j as [|j IH]; intros soln Hj.
  - simpl. now rewrite app_nil_r.
  - rewrite seq_S, rev_app_distr.
    rewrite (firstn_succ_nth entire_path j []) by lia.
    rewrite rev_app_distr.
    cbn [rev app RRT.build_path Nat.add].
    replace (S j - 1)%nat with j by lia.
    rewrite (getitem_nth entire_path j []) by lia.
    cbn [bind]. rewrite IH by lia. now rewrite <- app_assoc.
Qed.

Lemma build_path_rev (entire_path : list State) :
  RRT.build_path entire_path (xrange_down (length entire_path)) [] = Ok (rev entire_path).
Proof.
  rewrite build_path_firstn by lia. now rewrite firstn_all.
Qed.

(** With parents that point backward, the walk from slot [i] ends within
    [i + 1] runs of the loop body and collects the rows of the chain. *)
Lemma walk_parents_chain (V : list State) (P : list Z) :
  forall i fuel acc,
    (i < length V)%nat -> (i < length P)%nat ->
    (forall j, (j <= i)%nat ->
       parent P j = (-1)%Z \/ exists p, parent P j = Z.of_nat p /\ (p < j)%nat) ->
    (S i <= fuel)%nat ->
    exists l, chain P i l /\ (length l <= S i)%nat /\ hd i l = i /\
      RRT.walk_parents fuel V P (Z.of_nat i) acc = Ok (acc ++ map (row V) l).
Proof.
  induction i as [i IH] using lt_wf_ind. intros fuel acc HV HP Hback Hfuel.
  destruct fuel as [|fuel]; [lia|].
  cbn [RRT.walk_parents].
  replace (Z.of_nat i >? -1)%Z with true by (symmetry; apply Z.gtb_lt; lia).
  rewrite Nat2Z.id.
  rewrite (getitem_nth V i []) by assumption.
  rewrite (getitem_nth P i (-1)%Z) by assumption.
  cbn [bind]. fold (parent P i). fold (row V i).
  destruct (Hback i (Nat.le_refl i)) as [Hroot | [p [Hp Hlt]]].
  - exists [i]. rewrite Hroot. split; [now constructor|]. split; [simpl; lia|]. split; [reflexivity|].
    destruct fuel; reflexivity.
  - rewrite Hp.
    destruct (IH p Hlt fuel (acc ++ [row V i])) as [l [Hc [Hlen [Hhd Hw]]]]; try lia.
    { intros j Hj. apply Hback. lia. }
    exists (i :: l). split; [econstructor; eassumption|]. split; [simpl; lia|]. split; [reflexivity|].
    rewrite Hw. now rewrite <- app_assoc.
Qed.

Lemma chain_ends_without_parent P i l :
  chain P i l -> parent P (last l i) = (-1)%Z.
Proof.
  induction 1 as [i H | i p l Hp Hc IH]; simpl; [assumption|].
  destruct l as [|q l']; [inversion Hc|].
  replace (last (q :: l') i) with (last (q :: l') p); [assumption|].
  clear. revert q. induction l' as [|r l' IH]; intros q; simpl; [reflexivity|]. apply (IH r).
Qed.

Lemma soln_path_of_chain (V : list State) (P : list Z) i fuel :
  (i < length V)%nat -> (i < length P)%nat ->
  (forall j, (j <= i)%nat ->
     parent P j = (-1)%Z \/ exists p, parent P j = Z.of_nat p /\ (p < j)%nat) ->
  (S i <= fuel)%nat ->
  exists l, chain P i l /\ (length l <= S i)%nat /\ hd i l = i /\
    RRT.soln_path fuel V P (Z.of_nat i) = Ok (rev (map (row V) l)).
Proof.
  intros HV HP Hback Hfuel.
  destruct (walk_parents_chain V P i fuel [] HV HP Hback Hfuel) as [l [Hc [Hlen [Hhd Hw]]]].
  exists l. repeat split; try assumption.
  unfold RRT.soln_path. rewrite Hw. simpl. apply build_path_rev.
Qed.

(** C6: in a tree whose slots [0..n-1] are occupied, with [P[0] = -1] and
    [0 <= P[i] < i] for [0 < i < n], [soln_path] started at a slot [i < n]
    ends within [n] runs of its loop and returns the rows of the chain of
    parents of [i] in reverse order: from the root, slot 0, to slot [i]. *)
Theorem soln_path_root_to_node (n : nat) (V : list State) (P : list Z) (i fuel : nat) :
  prefix_tree n V P ->
  (i < n)%nat ->
  (n <= fuel)%nat ->
  exists l,
    chain P i l /\
    hd i l = i /\ last l i = 0%nat /\
    (length l <= n)%nat /\
    RRT.soln_path fuel V P (Z.of_nat i) = Ok (rev (map (row V) l)).
Proof.
  intros [Hn HV HP Hroot Hlinks] Hi Hfuel.
  assert (Hback : forall j, (j <= i)%nat ->
            parent P j = (-1)%Z \/ exists p, parent P j = Z.of_nat p /\ (p < j)%nat).
  { intros j Hj. destruct j as [|j]; [now left|]. right.
    specialize (Hlinks (S j) ltac:(lia)).
    exists (Z.to_nat (parent P (S j))). split; lia. }
  destruct (soln_path_of_chain V P i fuel) as [l [Hc [Hlen [Hhd Hs]]]]; try lia; try assumption.
  exists l. repeat split; try assumption; try lia.
  pose proof (chain_ends_without_parent P i l Hc) as Hend.
  destruct (last l i) as [|e] eqn:He; [reflexivity|]. exfalso.
  assert (Hin : In (S e) l).
  { rewrite <- He. apply last_In. intros ->. inversion Hc. }
  assert (Hbound : forall j, In j l -> (j <= i)%nat).
  { clear -Hc Hback. induction Hc as [i H | i p l Hp Hc IH]; intros j Hin.
    - destruct Hin as [<-|[]]. lia.
    - destruct Hin as [<-|Hin]; [lia|].
      destruct (Hback i (Nat.le_refl i)) as [Hr | [q [Hq Hlt]]]; [lia|].
      assert (q = p) by lia. subst q.
      assert (j <= p)%nat; [|lia]. apply IH; [|assumption].
      intros j' Hj'. apply Hback. lia. }
  specialize (Hbound (S e) Hin).
  specialize (Hlinks (S e) ltac:(lia)). lia.
Qed.

(** ** find_nearest *)

(** The index returned by the loop is the one it started with or the index of
    a visited row whose norm is not 0. *)
Lemma geometric_nearest_loop_cases x rows :
  forall i threshold nearidx,
    let r := GeometricRRT.nearest_loop x rows i threshold nearidx in
    r = nearidx \/
    ((i <= r < i + length rows)%nat /\ norm (nth (r - i) rows []) <> 0).
Proof.
  induction rows as [|rw rest IH]; intros i threshold nearidx; cbn zeta; [now left|].
  cbn [GeometricRRT.nearest_loop].
  assert (Hshift : forall t nr,
    let r := GeometricRRT.nearest_loop x rest (S i) t nr in
    r = nr \/ ((i <= r < i + length (rw :: rest))%nat /\
               norm (nth (r - i) (rw :: rest) []) <> 0)).
  { intros t nr. cbn zeta. destruct (IH (S i) t nr) as [H | [Hr Hn]]; [now left|]. right.
    cbn [length]. split; [lia|].
    replace (GeometricRRT.nearest_loop x rest (S i) t nr - i)%nat
      with (S (GeometricRRT.nearest_loop x rest (S i) t nr - S i)) by lia.
    exact Hn. }
  destruct (Reqb (norm rw) 0) eqn:Hz; [apply Hshift|].
  destruct (xlt (norm (vsub rw x)) threshold && xnonzero threshold); [|apply Hshift].
  destruct (Hshift (Fin (norm (vsub rw x))) i) as [H | H]; [|now right].
  right. cbn zeta in H. rewrite H. cbn [length]. split; [lia|].
  rewrite Nat.sub_diag. cbn [nth]. intros Hn. apply Reqb_true in Hn. congruence.
Qed.

Lemma row_app_seen (seen rest : list State) j :
  (j < length seen)%nat -> row (seen ++ rest) j = row seen j.
Proof. intros H. unfold row. now apply app_nth1. Qed.

Lemma row_app_next (seen : list State) rw :
  row (seen ++ [rw]) (length seen) = rw.
Proof. unfold row. rewrite app_nth2 by lia. now rewrite Nat.sub_diag. Qed.

(** The loop keeps the first nearest row among the rows of norm other than 0
    that it has seen. *)
Lemma geometric_nearest_loop_state x rows :
  forall seen threshold nearidx,
    nearest_state x seen threshold nearidx ->
    exists t, nearest_state x (seen ++ rows) t
                (GeometricRRT.nearest_loop x rows (length seen) threshold nearidx).
Proof.
  induction rows as [|rw rest IH]; intros seen threshold nearidx Hst.
  - exists threshold. rewrite app_nil_r. exact Hst.
  - cbn [GeometricRRT.nearest_loop].
    assert (Hnext : forall t nr, nearest_state x (seen ++ [rw]) t nr ->
              exists t', nearest_state x (seen ++ rw :: rest) t'
                           (GeometricRRT.nearest_loop x rest (S (length seen)) t nr)).
    { intros t nr H. specialize (IH (seen ++ [rw]) t nr H).
      rewrite <- app_assoc in IH. cbn [app] in IH.
      rewrite length_app in IH. cbn [length] in IH. rewrite Nat.add_1_r in IH.
      exact IH. }
    assert (Hrows : forall j, (j < length seen)%nat -> row (seen ++ [rw]) j = row seen j).
    { intros j Hj. now apply row_app_seen. }
    assert (Hq : forall j, (j < length seen)%nat ->
              query_distance x (seen ++ [rw]) j = query_distance x seen j).
    { intros j Hj. unfold query_distance. now rewrite Hrows. }
    assert (Hqn : query_distance x (seen ++ [rw]) (length seen) = norm (vsub rw x)).
    { unfold query_distance. now rewrite row_app_next. }
    assert (Hlen : length (seen ++ [rw]) = S (length seen)).
    { rewrite length_app. cbn [length]. lia. }
    destruct (Reqb (norm rw) 0) eqn:Hz.
    + (* a row of norm 0 is skipped *)
      apply Reqb_iff in Hz. apply (Hnext threshold nearidx).
      destruct Hst as [[Ht [Hn Hall]] | [Ht [Hlt [Hnz [Hmin Hfirst]]]]].
      * left. split; [assumption|]. split; [assumption|]. intros j Hj. rewrite Hlen in Hj.
        destruct (Nat.eq_dec j (length seen)) as [->|Hne].
        -- now rewrite row_app_next.
        -- rewrite Hrows by lia. apply Hall. lia.
      * right. split; [now rewrite Hq|]. split; [rewrite Hlen; lia|].
        split; [now rewrite Hrows|]. split.
        -- intros j Hj Hjn. rewrite Hlen in Hj.
           destruct (Nat.eq_dec j (length seen)) as [->|Hne].
           ++ rewrite row_app_next in Hjn. contradiction.
           ++ rewrite Hrows in Hjn by lia. rewrite !Hq by lia. apply Hmin; [lia|assumption].
        -- intros j Hj Hjn. rewrite Hrows in Hjn by lia. rewrite !Hq by lia. now apply Hfirst.
    + assert (Hnz : norm rw <> 0).
      { intros H. apply Reqb_true in H. congruence. }
      destruct (xlt (norm (vsub rw x)) threshold && xnonzero threshold) eqn:Hc.
      * (* the row is strictly nearer: it becomes the nearest *)
        apply (Hnext (Fin (norm (vsub rw x))) (length seen)).
        right. split; [now rewrite Hqn|]. split; [rewrite Hlen; lia|].
        split; [now rewrite row_app_next|].
        apply andb_true_iff in Hc. destruct Hc as [Hc _].
        assert (Hbelow : forall j, (j < length seen)%nat -> norm (row seen j) <> 0 ->
                  norm (vsub rw x) < query_distance x seen j).
        { intros j Hj Hjn.
          destruct Hst as [[Ht [Hn Hall]] | [Ht [Hlt [Hnz' [Hmin Hfirst]]]]].
          - now destruct (Hjn (Hall j Hj)).
          - subst threshold. cbn [xlt] in Hc. apply Rltb_iff in Hc.
            specialize (Hmin j Hj Hjn). lra. }
        split.
        -- intros j Hj Hjn. rewrite Hlen in Hj. rewrite Hqn.
           destruct (Nat.eq_dec j (length seen)) as [->|Hne].
           ++ rewrite Hqn. lra.
           ++ rewrite Hrows in Hjn by lia. rewrite Hq by lia.
              specialize (Hbelow j ltac:(lia) Hjn). lra.
        -- intros j Hj Hjn. rewrite Hrows in Hjn by lia. rewrite Hqn, Hq by lia.
           now apply Hbelow.
      * (* the row is not strictly nearer: nothing changes *)
        apply (Hnext threshold nearidx).
        destruct Hst as [[Ht [Hn Hall]] | [Ht [Hlt [Hnz' [Hmin Hfirst]]]]].
        -- subst threshold. cbn [xlt xnonzero andb] in Hc. discriminate.
        -- right. split; [now rewrite Hq|]. split; [rewrite Hlen; lia|].
           split; [now rewrite Hrows|].
           assert (Hge : query_distance x seen nearidx <= norm (vsub rw x)).
           { subst threshold. cbn [xlt xnonzero] in Hc.
             apply andb_false_iff in Hc. destruct Hc as [Hc | Hc].
             - destruct (Rle_or_lt (query_distance x seen nearidx) (norm (vsub rw x))) as [H|H];
                 [exact H|]. apply Rltb_true in H. congruence.
             - apply negb_false_iff in Hc. apply Reqb_iff in Hc. rewrite Hc. apply norm_nonneg. }
           split.
           ++ intros j Hj Hjn. rewrite Hlen in Hj. rewrite Hq by lia.
              destruct (Nat.eq_dec j (length seen)) as [->|Hne].
              ** now rewrite Hqn.
              ** rewrite Hrows in Hjn by lia. rewrite Hq by lia. apply Hmin; [lia|assumption].
           ++ intros j Hj Hjn. rewrite Hrows in Hjn by lia. rewrite !Hq by lia.
              now apply Hfirst.
Qed.

(** What [GeometricRRT.find_nearest] computes: the first of the nearest rows
    among those whose norm is not 0, and 0 when every row has norm 0. *)
Lemma geometric_find_nearest_spec (V : list State) (x : State) :
  (GeometricRRT.find_nearest V x = 0%nat /\
   forall j, (j < length V)%nat -> norm (row V j) = 0) \/
  first_nearest_nonzero x V (GeometricRRT.find_nearest V x).
Proof.
  unfold GeometricRRT.find_nearest.
  assert (H0 : nearest_state x [] PInf 0).
  { left. split; [reflexivity|]. split; [reflexivity|]. cbn [length]. intros j Hj. lia. }
  destruct (geometric_nearest_loop_state x V [] PInf 0%nat H0) as [t H].
  cbn [app length] in H.
  destruct H as [[_ [Hn Hall]] | [_ Hf]]; [left; now split | now right].
Qed.

(** On a tree whose [n] first rows are states of norm other than 0 and whose
    other rows were never written, [find_nearest] returns the first nearest
    state. *)
Lemma geometric_find_nearest_prefix (V : list State) (x : State) (n : nat) :
  (0 < n <= length V)%nat ->
  (forall i, (i < n)%nat -> norm (row V i) <> 0) ->
  (forall i, (n <= i < length V)%nat -> norm (row V i) = 0) ->
  let r := GeometricRRT.find_nearest V x in
  (r < n)%nat /\
  (forall j, (j < n)%nat -> query_distance x V r <= query_distance x V j) /\
  (forall j, (j < r)%nat -> query_distance x V r < query_distance x V j).
Proof.
  intros Hn Hocc Hfree. cbn zeta.
  destruct (geometric_find_nearest_spec V x) as [[_ Hall] | [Hlt [Hnz [Hmin Hfirst]]]].
  - destruct (Hocc 0%nat ltac:(lia)). apply Hall. lia.
  - assert (Hr : (GeometricRRT.find_nearest V x < n)%nat).
    { destruct (Nat.lt_ge_cases (GeometricRRT.find_nearest V x) n) as [H|H]; [exact H|].
      destruct Hnz. apply Hfree. lia. }
    split; [exact Hr|]. split.
    + intros j Hj. apply Hmin; [lia|now apply Hocc].
    + intros j Hj. apply Hfirst; [exact Hj|]. apply Hocc. lia.
Qed.

#[export] Instance geometric_nearest_written lli : NearestWritten (geometric_dynamics lli).
Proof.
  intros V x. cbn [RRT.find_nearest geometric_dynamics]. unfold GeometricRRT.find_nearest.
  destruct (geometric_nearest_loop_cases x V 0 PInf 0) as [H | [Hr Hn]]; [now left|].
  right. split; [lia|]. intros d Hd. apply Hn.
  rewrite Nat.sub_0_r. unfold row in Hd. rewrite Hd. apply norm_zeros.
Qed.

Lemma dubins_coord_zeros d c : DubinsRRT.coord (zeros d) c = 0.
Proof.
  unfold DubinsRRT.coord, zeros. revert c.
  induction d as [|d IHd]; intros [|c]; cbn [repeat nth]; try reflexivity. apply IHd.
Qed.

Lemma dubins_nearest_loop_cases path_length turning_radius x rows :
  forall i threshold nearidx,
    let r := DubinsRRT.nearest_loop path_length turning_radius x rows i threshold nearidx in
    r = nearidx \/
    ((i <= r < i + length rows)%nat /\ forall d, nth (r - i) rows [] <> zeros d).
Proof.
  induction rows as [|rw rest IH]; intros i threshold nearidx; cbn zeta; [now left|].
  cbn [DubinsRRT.nearest_loop].
  assert (Hshift : forall t nr,
    let r := DubinsRRT.nearest_loop path_length turning_radius x rest (S i) t nr in
    r = nr \/ ((i <= r < i + length (rw :: rest))%nat /\
               forall d, nth (r - i) (rw :: rest) [] <> zeros d)).
  { intros t nr. cbn zeta. destruct (IH (S i) t nr) as [H | [Hr Hn]]; [now left|]. right.
    cbn [length]. split; [lia|].
    replace (DubinsRRT.nearest_loop path_length turning_radius x rest (S i) t nr - i)%nat
      with (S (DubinsRRT.nearest_loop path_length turning_radius x rest (S i) t nr - S i)) by lia.
    exact Hn. }
  destruct (Reqb (DubinsRRT.coord rw 0) 0 && Reqb (DubinsRRT.coord rw 1) 0
            && Reqb (DubinsRRT.coord rw 2) 0) eqn:Hz; [apply Hshift|].
  destruct (Rltb (path_length rw x turning_radius) threshold); [|apply Hshift].
  destruct (Hshift (path_length rw x turning_radius) i) as [H | H]; [|now right].
  right. cbn zeta in H. rewrite H. cbn [length]. split; [lia|].
  rewrite Nat.sub_diag. cbn [nth]. intros d Hd. subst rw.
  rewrite !dubins_coord_zeros in Hz. rewrite Reqb_true in Hz by reflexivity. discriminate.
Qed.

(** ** The search driver *)

Lemma occupied_list_set P k v p :
  occupied P p -> parent P k = (-1)%Z -> occupied (list_set P k v) p.
Proof.
  intros [-> | [Hlt Hp]] Hk; [now left|].
  right. rewrite list_set_length. split; [assumption|].
  unfold parent in *. rewrite nth_list_set_neq; [assumption|]. intros ->. contradiction.
Qed.

Lemma coin_box_rounds_cons j z x l :
  coin_box_rounds j l -> coin_box_rounds (S j) (DrawScalar z :: DrawBox x :: l).
Proof. unfold coin_box_rounds. intros H. cbn. now rewrite H. Qed.

Section SolveProperties.
Context {D : RRT.Dynamics} {RS : RandomSource} {HD : NearestWritten D}.
Variable self : RRT.Problem.
Variable fuel : nat.
Variable eps goal_bias : R.
Variable m : nat.
Hypothesis fuel_enough : (m <= fuel)%nat.

Let d := length (RRT.x_init self).

(** The nearest index is a slot before [k] that holds a state. *)
Lemma nearest_before k st xrand :
  running self m k st ->
  let i := RRT.find_nearest (RRT.V st) xrand in
  (i < k)%nat /\ occupied (RRT.P st) i.
Proof.
  intros [[HlV HlP Hn HrV [Hr0 Hlinks] Hgaps] Hk Hunw Hng Hs Hp]. cbn zeta.
  destruct (nearest_written (RRT.V st) xrand) as [-> | [Hlt Hnz]].
  - split; [lia|now left].
  - set (i := RRT.find_nearest (RRT.V st) xrand) in *.
    assert (Hik : (i < k)%nat).
    { destruct (Nat.lt_ge_cases i k) as [H|H]; [assumption|].
      destruct (Hunw i ltac:(lia)) as [Hz _]. now destruct (Hnz _ Hz). }
    split; [assumption|].
    destruct i as [|i]; [now left|]. right. split; [lia|].
    intros Hm. apply (Hnz d). apply Hgaps; [lia|assumption].
Qed.

Lemma backward_cases st :
  tree_ok self m st ->
  forall j, parent (RRT.P st) j = (-1)%Z \/
            exists p, parent (RRT.P st) j = Z.of_nat p /\ (p < j)%nat.
Proof.
  intros [HlV HlP Hn HrV [Hr0 Hlinks] Hgaps] j.
  destruct (Z.eq_dec (parent (RRT.P st) j) (-1)) as [H|H]; [now left|]. right.
  destruct (Nat.lt_ge_cases j (length (RRT.P st))) as [Hj|Hj].
  - destruct j as [|j]; [contradiction|].
    destruct (Hlinks (S j) ltac:(lia) H) as [p [Hp [Hlt _]]]. now exists p.
  - unfold parent in H. rewrite nth_overflow in H by assumption. contradiction.
Qed.

(** One run of the body after the sample: the tree stays well formed, and
    the loop is left exactly when the state inserted in slot [k] is the
    goal. *)
Lemma extend_running k st xrand :
  running self m k st -> (k < m)%nat ->
  exists st' b,
    RRT.extend self fuel eps k xrand st = Ok (st', b) /\
    tree_ok self m st' /\
    ((b = false /\ running self m (S k) st') \/
     (b = true /\ succeeded self m fuel k st')).
Proof.
  intros Hrun Hkm.
  destruct (nearest_before k st xrand Hrun) as [Hik Hocc].
  destruct Hrun as [[HlV HlP Hn HrV [Hr0 Hlinks] Hgaps] Hk Hunw Hng Hs Hp].
  unfold RRT.extend.
  set (i := RRT.find_nearest (RRT.V st) xrand) in *.
  rewrite (getitem_nth (RRT.V st) i []) by lia. cbn [bind].
  set (xnew := RRT.steer_towards (nth i (RRT.V st) []) xrand eps).
  destruct (RRT.is_free_motion (RRT.obstacles self) (nth i (RRT.V st) []) xnew).
  2:{ exists st, false. split; [reflexivity|].
      assert (Hok : tree_ok self m st) by (constructor; try assumption; now split).
      split; [exact Hok|]. left. split; [reflexivity|].
      constructor; try assumption; try lia.
      - intros j Hj. apply Hunw. lia.
      - intros j Hj Hpj. destruct (Nat.eq_dec j k) as [->|Hne].
        + destruct (Hunw k ltac:(lia)) as [_ Hk1]. contradiction.
        + apply Hng; [lia|assumption]. }
  rewrite !setitem_ok by lia. cbn [bind].
  set (V' := list_set (RRT.V st) k xnew).
  set (P' := list_set (RRT.P st) k (Z.of_nat i)).
  destruct (Hunw k ltac:(lia)) as [_ HPk].
  assert (HP'k : parent P' k = Z.of_nat i).
  { unfold parent, P'. apply nth_list_set_eq. lia. }
  assert (HV'k : row V' k = xnew).
  { unfold row, V'. apply nth_list_set_eq. lia. }
  assert (HP'o : forall j, j <> k -> parent P' j = parent (RRT.P st) j).
  { intros j Hj. unfold parent, P'. apply nth_list_set_neq. congruence. }
  assert (HV'o : forall j, j <> k -> row V' j = row (RRT.V st) j).
  { intros j Hj. unfold row, V'. apply nth_list_set_neq. congruence. }
  assert (Hlinks' : parents_backward P').
  { split; [rewrite HP'o by lia; assumption|].
    unfold P' at 1. rewrite list_set_length. intros j Hj Hpj.
    destruct (Nat.eq_dec j k) as [->|Hne].
    - exists i. split; [assumption|]. split; [assumption|].
      now apply occupied_list_set.
    - rewrite HP'o in Hpj |- * by assumption.
      destruct (Hlinks j Hj Hpj) as [p [Hp1 [Hp2 Hp3]]].
      exists p. split; [assumption|]. split; [assumption|].
      now apply occupied_list_set. }
  assert (Hgaps' : forall j, (0 < j < m)%nat -> parent P' j = (-1)%Z -> row V' j = zeros d).
  { intros j Hj Hpj. destruct (Nat.eq_dec j k) as [->|Hne].
    - rewrite HP'k in Hpj. lia.
    - rewrite HP'o in Hpj by assumption. rewrite HV'o by assumption. now apply Hgaps. }
  assert (Hunw' : forall n0 s p0, unwritten_from self m (S k)
            {| RRT.V := V'; RRT.P := P'; RRT.n := n0; RRT.success := s; RRT.solution_path := p0 |}).
  { intros n0 s p0 j Hj. cbn [RRT.V RRT.P]. rewrite HV'o, HP'o by lia. apply Hunw. lia. }
  assert (Hng' : forall n0 s p0, no_goal_below self k
            {| RRT.V := V'; RRT.P := P'; RRT.n := n0; RRT.success := s; RRT.solution_path := p0 |}).
  { intros n0 s p0 j Hj. cbn [RRT.V RRT.P]. rewrite HV'o, HP'o by lia. now apply Hng. }
  assert (Hok' : forall s p0, tree_ok self m
            {| RRT.V := V'; RRT.P := P'; RRT.n := RRT.n st; RRT.success := s; RRT.solution_path := p0 |}).
  { intros s p0. constructor; cbn [RRT.V RRT.P RRT.n]; try assumption.
    - unfold V'. now rewrite list_set_length.
    - unfold P'. now rewrite list_set_length.
    - rewrite HV'o by lia. assumption. }
  destruct (array_equal xnew (RRT.x_goal self)) eqn:Hgoal.
  - apply array_equal_iff in Hgoal.
    destruct (soln_path_of_chain V' P' k fuel) as [l [_ [_ [_ Hsp]]]].
    + unfold V'. rewrite list_set_length. lia.
    + unfold P'. rewrite list_set_length. lia.
    + intros j _. apply (backward_cases _ (Hok' true [])).
    + lia.
    + rewrite Hsp. cbn [bind]. eexists _, true. split; [reflexivity|].
      split; [apply Hok'|]. right. split; [reflexivity|].
      unfold succeeded. cbn [RRT.V RRT.P RRT.success RRT.solution_path].
      split; [reflexivity|]. split; [lia|]. split; [rewrite HP'k; lia|].
      split; [now rewrite HV'k|]. split; [apply Hng'|]. split; [apply Hunw'|].
      exact Hsp.
  - eexists _, false. split; [reflexivity|].
    split; [apply Hok'|]. left. split; [reflexivity|].
    constructor; cbn [RRT.success RRT.solution_path]; try assumption; try lia.
    + apply Hok'.
    + apply Hunw'.
    + intros j Hj Hpj. cbn [RRT.V RRT.P] in *. destruct (Nat.eq_dec j k) as [->|Hne].
      * rewrite HV'k. intros Heq. apply array_equal_iff in Heq. congruence.
      * apply (Hng' 0%Z true []); [lia|assumption].
Qed.

Lemma sample_eq w :
  let zg := uniform RS 0 1 (gen w) in
  let xg := uniform_box RS (RRT.statespace_lo self) (RRT.statespace_hi self) d (snd zg) in
  RRT.sample self goal_bias w =
    (if Rltb (fst zg) goal_bias then RRT.x_goal self else fst xg,
     {| gen := snd xg; draws := draws w ++ [DrawScalar (fst zg); DrawBox (fst xg)] |}).
Proof.
  cbn zeta. unfold RRT.sample, np_random_uniform, np_random_uniform_box. fold d.
  destruct (uniform RS 0 1 (gen w)) as [z g1]. cbn [gen draws fst snd].
  destruct (uniform_box RS (RRT.statespace_lo self) (RRT.statespace_hi self) d g1) as [xr g2].
  cbn [fst snd]. now rewrite <- app_assoc.
Qed.

(** The loop from iteration [k] on: it ends without error, either after all
    its iterations or at the first one that inserts the goal, and every
    iteration it runs logs one scalar draw and one box draw. *)
Lemma for_loop_running cnt :
  forall k st w,
    running self m k st -> (k + cnt = m)%nat ->
    exists out (w' : World RS) l,
      RRT.for_loop self fuel eps goal_bias (seq k cnt) st w = (Ok out, w') /\
      draws w' = draws w ++ l /\
      tree_ok self m out /\
      ((exhausted self m out /\ coin_box_rounds cnt l) \/
       (exists k', (k <= k' < m)%nat /\ succeeded self m fuel k' out /\
                   coin_box_rounds (S (k' - k)) l)).
Proof.
  induction cnt as [|cnt IH]; intros k st w Hrun Hk.
  - exists st, w, []. cbn [seq RRT.for_loop]. split; [reflexivity|].
    split; [now rewrite app_nil_r|]. split; [apply Hrun|]. left.
    split; [|reflexivity]. destruct Hrun as [_ _ _ Hng Hs Hp].
    replace m with k by lia. now repeat split.
  - cbn [seq RRT.for_loop]. unfold RRT.iteration. rewrite sample_eq. cbn zeta.
    set (zg := uniform RS 0 1 (gen w)).
    set (xg := uniform_box RS _ _ d (snd zg)).
    set (xrand := if Rltb (fst zg) goal_bias then RRT.x_goal self else fst xg).
    set (w1 := {| gen := snd xg; draws := draws w ++ [DrawScalar (fst zg); DrawBox (fst xg)] |}).
    destruct (extend_running k st xrand Hrun ltac:(lia)) as [st' [b [He [Hok [[-> Hr] | [-> Hsucc]]]]]];
      rewrite He.
    + destruct (IH (S k) st' w1 Hr ltac:(lia)) as [out [w' [l [Hl [Hd [Hout Hend]]]]]].
      exists out, w', (DrawScalar (fst zg) :: DrawBox (fst xg) :: l).
      split; [exact Hl|]. split.
      { rewrite Hd. unfold w1. cbn [draws]. now rewrite <- app_assoc. }
      split; [exact Hout|].
      destruct Hend as [[Hex Hrounds] | [k' [Hk' [Hs Hrounds]]]].
      * left. split; [exact Hex|]. now apply coin_box_rounds_cons.
      * right. exists k'. split; [lia|]. split; [exact Hs|].
        replace (k' - k)%nat with (S (k' - S k)) by lia. now apply coin_box_rounds_cons.
    + exists st', w1, [DrawScalar (fst zg); DrawBox (fst xg)].
      split; [reflexivity|]. split; [reflexivity|]. split; [exact Hok|].
      right. exists k. split; [lia|]. split; [exact Hsucc|].
      rewrite Nat.sub_diag. reflexivity.
Qed.

Lemma init_running (max_iters : Z) :
  (1 <= max_iters)%Z -> m = Z.to_nat max_iters ->
  exists st, RRT.init self max_iters = Ok st /\ running self m 1 st.
Proof.
  intros Hpos Hm. unfold RRT.init, np_zeros, np_minus_ones.
  replace (max_iters <? 0)%Z with false by (symmetry; apply Z.ltb_ge; lia).
  cbn [bind]. rewrite setitem_ok by (rewrite repeat_length; lia). cbn [bind].
  eexists. split; [reflexivity|]. fold d. rewrite <- Hm.
  assert (Hm1 : (1 <= m)%nat) by lia.
  assert (HP : forall i, parent (repeat (-1)%Z m) i = (-1)%Z).
  { intros i. unfold parent. apply nth_repeat. }
  assert (HV : forall i, (0 < i < m)%nat ->
            row (list_set (repeat (zeros d) m) 0 (RRT.x_init self)) i = zeros d).
  { intros i Hi. unfold row. rewrite nth_list_set_neq by lia.
    rewrite (nth_indep _ [] (zeros d)) by (rewrite repeat_length; lia). apply nth_repeat. }
  constructor; cbn [RRT.V RRT.P RRT.n RRT.success RRT.solution_path]; try reflexivity; try lia.
  - constructor; cbn [RRT.V RRT.P RRT.n]; try reflexivity.
    + now rewrite list_set_length, repeat_length.
    + apply repeat_length.
    + unfold row. apply nth_list_set_eq. rewrite repeat_length. lia.
    + split; [apply HP|]. intros i _ Hi. now destruct Hi.
    + intros i Hi _. now apply HV.
  - intros i Hi. cbn [RRT.V RRT.P]. split; [apply HV; lia|apply HP].
  - intros i Hi. lia.
Qed.

(** [solve] with [max_iters >= 1]: no error, whatever [eps] and [goal_bias]
    are. *)
Lemma solve_running (max_iters : Z) w :
  (1 <= max_iters)%Z -> m = Z.to_nat max_iters ->
  exists out (w' : World RS) l,
    RRT.solve self fuel eps goal_bias max_iters w = (Ok out, w') /\
    draws w' = draws w ++ l /\
    tree_ok self m out /\
    ((exhausted self m out /\ coin_box_rounds (m - 1) l) \/
     (exists k, (1 <= k < m)%nat /\ succeeded self m fuel k out /\ coin_box_rounds k l)).
Proof.
  intros Hpos Hm. destruct (init_running max_iters Hpos Hm) as [st [Hinit Hrun]].
  unfold RRT.solve. rewrite Hinit. unfold range1. rewrite <- Hm.
  destruct (for_loop_running (m - 1) 1 st w Hrun ltac:(lia))
    as [out [w' [l [Hl [Hd [Hok Hend]]]]]].
  exists out, w', l. split; [exact Hl|]. split; [exact Hd|]. split; [exact Hok|].
  destruct Hend as [H | [k [Hk [Hs Hr]]]]; [now left|]. right.
  exists k. split; [lia|]. split; [exact Hs|].
  replace (S (k - 1)) with k in Hr by lia. exact Hr.
Qed.
End SolveProperties.

(** [solve] with [max_iters < 1] stops at the allocation of the tree or at the
    write of the root, before any draw. *)
Lemma solve_without_slots {D : RRT.Dynamics} {RS : RandomSource}
      (self : RRT.Problem) fuel eps goal_bias (max_iters : Z) (w : World RS) :
  (max_iters < 1)%Z ->
  exists e, RRT.solve self fuel eps goal_bias max_iters w = (Raise e, w).
Proof.
  intros H. unfold RRT.solve, RRT.init, np_zeros.
  destruct (max_iters <? 0)%Z eqn:E.
  - exists ValueError. reflexivity.
  - apply Z.ltb_ge in E. replace max_iters with 0%Z by lia.
    exists IndexError. reflexivity.
Qed.

(** The outcome of the loop and the generator it leaves depend on the
    generator it starts with, not on the log. *)
Lemma for_loop_same_generator {D : RRT.Dynamics} {RS : RandomSource}
      (self : RRT.Problem) fuel eps goal_bias ks :
  forall st (w1 w2 : World RS),
    gen w1 = gen w2 ->
    fst (RRT.for_loop self fuel eps goal_bias ks st w1) =
      fst (RRT.for_loop self fuel eps goal_bias ks st w2) /\
    gen (snd (RRT.for_loop self fuel eps goal_bias ks st w1)) =
      gen (snd (RRT.for_loop self fuel eps goal_bias ks st w2)).
Proof.
  induction ks as [|k ks IH]; intros st w1 w2 Hg; cbn [RRT.for_loop].
  - now split.
  - unfold RRT.iteration. rewrite !sample_eq. cbn zeta. rewrite <- Hg.
    destruct (RRT.extend self fuel eps k _ st) as [[st' [|]] | e |]; cbn [fst snd gen];
      try (now split).
    apply IH. reflexivity.
Qed.

(** ** Runs on explicit inputs *)

Lemma norm_root_near_goal : norm [0; 1] = 1.
Proof.
  unfold norm. cbn [sumsq]. replace (0 * 0 + (1 * 1 + 0)) with 1 by ring. apply sqrt_1.
Qed.

Lemma near_goal_nearest (x : State) :
  GeometricRRT.find_nearest [[0; 1]; [0; 0]] x = 0%nat.
Proof.
  unfold GeometricRRT.find_nearest. cbn [GeometricRRT.nearest_loop].
  rewrite norm_root_near_goal. rewrite (Reqb_false 1 0) by lra.
  cbn [xlt xnonzero andb].
  change [0; 0] with (zeros 2). rewrite norm_zeros. rewrite Reqb_true by reflexivity.
  reflexivity.
Qed.

Lemma near_goal_distance : norm (vsub [0; 2] [0; 1]) = 1.
Proof.
  unfold norm, vsub. cbn [vzip sumsq].
  replace ((0 - 0) * (0 - 0) + ((2 - 1) * (2 - 1) + 0)) with 1 by ring. apply sqrt_1.
Qed.

Lemma near_goal_steer_reaches : GeometricRRT.steer_towards [0; 1] [0; 2] 2 = [0; 2].
Proof.
  unfold GeometricRRT.steer_towards. rewrite near_goal_distance.
  now rewrite Rltb_true by lra.
Qed.


Ltac run_first_iteration :=
  unfold RRT.solve, RRT.init, np_zeros, np_minus_ones, range1;
  change (Z.to_nat 2) with 2%nat;
  cbn [Z.ltb Z.compare bind Nat.add Nat.sub repeat zeros
       near_goal_problem RRT.x_init length setitem Nat.ltb Nat.leb list_set seq RRT.for_loop];
  unfold RRT.iteration, RRT.sample, np_random_uniform, np_random_uniform_box;
  cbn [fresh_world gen draws low_end_source uniform uniform_box app
       near_goal_problem RRT.statespace_lo RRT.statespace_hi RRT.x_goal RRT.x_init length].

Ltac run_extend :=
  unfold RRT.extend;
  cbn [RRT.V RRT.P RRT.n RRT.success RRT.solution_path RRT.find_nearest RRT.steer_towards
       RRT.is_free_motion geometric_dynamics near_goal_problem RRT.obstacles RRT.x_goal
       GeometricRRT.is_free_motion];
  rewrite near_goal_nearest;
  cbn [getitem nth_error bind].

(** With [eps = 2] and [goal_bias = 1] the first iteration reaches the goal. *)
Lemma near_goal_run :
  RRT.solve (D := geometric_dynamics no_intersection) near_goal_problem 2 2 1 2 fresh_world =
  (Ok {| RRT.V := [[0; 1]; [0; 2]]; RRT.P := [-1; 0]%Z; RRT.n := 1;
         RRT.success := true; RRT.solution_path := [[0; 1]; [0; 2]] |},
   Build_World low_end_source 2%nat [DrawScalar 0; DrawBox [-5; -5]]).
Proof.
  run_first_iteration. rewrite (Rltb_true 0 1) by lra. run_extend.
  rewrite near_goal_steer_reaches.
  rewrite (proj2 (array_equal_iff [0; 2] [0; 2]) eq_refl).
  reflexivity.
Qed.


(** [DubinsRRT.find_nearest] too returns 0 or the index of a row that is not
    a row of zeros. *)
Lemma dubins_find_nearest_written path_length turning_radius (V : list State) (x : State) :
  let r := DubinsRRT.find_nearest path_length turning_radius V x in
  r = 0%nat \/ ((r < length V)%nat /\ forall d, row V r <> zeros d).
Proof.
  cbn zeta. unfold DubinsRRT.find_nearest.
  destruct (dubins_nearest_loop_cases path_length turning_radius x V 0 10000 0)
    as [H | [Hr Hn]]; [now left|].
  right. split; [lia|]. intros d. rewrite Nat.sub_0_r in Hn. apply Hn.
Qed.

(** The Dubins variant skips a root at the origin in the same way, whatever
    the path length from the root is. *)
Lemma dubins_nearest_skips_origin_root path_length turning_radius :
  path_length [3; 4; 0] [1; 0; 0] turning_radius < 10000 ->
  DubinsRRT.find_nearest path_length turning_radius [[0; 0; 0]; [3; 4; 0]] [1; 0; 0] = 1%nat.
Proof.
  intros H. unfold DubinsRRT.find_nearest. cbn [DubinsRRT.nearest_loop].
  unfold DubinsRRT.coord. cbn [nth].
  rewrite (Reqb_true 0 0) by reflexivity. cbn [andb].
  rewrite (Reqb_false 3 0) by lra. cbn [andb].
  now rewrite Rltb_true.
Qed.

(** ** The claims about the tree and the driver *)

(** C1: on the tree [V] with root [(0,0)] and second state [(3,4)] (slots 0
    and 1 occupied, slot 2 never written) and the query [(1,0)],
    [find_nearest] returns 1 although the root is strictly nearer: the rows
    whose norm is 0 are skipped, the root among them. *)
Theorem find_nearest_skips_origin_root :
  GeometricRRT.find_nearest [[0; 0]; [3; 4]; [0; 0]] [1; 0] = 1%nat /\
  norm (vsub [0; 0] [1; 0]) < norm (vsub [3; 4] [1; 0]).
Proof.
  assert (H34 : norm [3; 4] <> 0).
  { unfold norm. cbn [sumsq]. intros H. apply sqrt_eq_0 in H; lra. }
  split.
  - unfold GeometricRRT.find_nearest. cbn [GeometricRRT.nearest_loop].
    change [0; 0] with (zeros 2). rewrite norm_zeros. rewrite (Reqb_true 0 0) by reflexivity.
    rewrite (Reqb_false _ 0 H34). cbn [xlt xnonzero andb]. reflexivity.
  - unfold norm, vsub. cbn [vzip sumsq]. apply sqrt_lt_1_alt. lra.
Qed.

(** C2: on the instance [near_goal_problem] with [eps = 2], [goal_bias = 1]
    and [max_iters = 2], [solve] inserts a state in slot 1, so the tree has
    two states, and its counter [n] is still 1. *)
Theorem solve_counter_not_updated :
  exists out w',
    RRT.solve (D := geometric_dynamics no_intersection) near_goal_problem 2 2 1 2 fresh_world
      = (Ok out, w') /\
    RRT.n out = 1%Z /\ tree_size (RRT.P out) = 2%Z.
Proof.
  eexists _, _. split; [apply near_goal_run|]. split; reflexivity.
Qed.



(** C5: [solve] ends with [success] exactly when a slot [k >= 1] holds a
    state equal to the goal.  In that case it left the loop at iteration [k]:
    the path is [soln_path] from slot [k], no later slot was written and [k]
    rounds of draws were made.  Otherwise all [max_iters - 1] iterations ran
    and the path is empty. *)
Theorem solve_success_exact
        {D : RRT.Dynamics} {RS : RandomSource} {HD : NearestWritten D}
        (self : RRT.Problem) (fuel : nat) (eps goal_bias : R) (max_iters : Z)
        (w : World RS) :
  (1 <= max_iters)%Z ->
  (Z.to_nat max_iters <= fuel)%nat ->
  exists out (w' : World RS) l,
    RRT.solve self fuel eps goal_bias max_iters w = (Ok out, w') /\
    draws w' = draws w ++ l /\
    (RRT.success out = true <->
     exists k, (0 < k < Z.to_nat max_iters)%nat /\
               parent (RRT.P out) k <> (-1)%Z /\
               row (RRT.V out) k = RRT.x_goal self) /\
    ((exists k, succeeded self (Z.to_nat max_iters) fuel k out /\ coin_box_rounds k l) \/
     (exhausted self (Z.to_nat max_iters) out /\
      coin_box_rounds (Z.to_nat max_iters - 1) l)).
Proof.
  intros Hm Hfuel.
  destruct (solve_running self fuel eps goal_bias (Z.to_nat max_iters) Hfuel max_iters w Hm eq_refl)
    as [out [w' [l [Hs [Hd [Hok Hend]]]]]].
  exists out, w', l. split; [exact Hs|]. split; [exact Hd|]. split.
  - destruct Hend as [[[Hf [Hp Hng]] _] | [k [Hk [Hsucc _]]]].
    + split; [congruence|]. intros [k [Hk [Hpk Hrow]]]. now destruct (Hng k Hk Hpk).
    + destruct Hsucc as [Ht [_ [Hpk [Hrow _]]]]. split; [|now intros _].
      intros _. exists k. split; [lia|]. now split.
  - destruct Hend as [H | [k [_ H]]]; [now right|]. left. now exists k.
Qed.

Lemma solve_success_exact_witness :
  (1 <= 2)%Z /\ (Z.to_nat 2 <= 2)%nat /\
  exists out (w' : World low_end_source) l,
    RRT.solve (D := geometric_dynamics no_intersection) near_goal_problem 2 2 1 2 fresh_world
      = (Ok out, w') /\
    draws w' = draws fresh_world ++ l /\
    (RRT.success out = true <->
     exists k, (0 < k < Z.to_nat 2)%nat /\
               parent (RRT.P out) k <> (-1)%Z /\
               row (RRT.V out) k = RRT.x_goal near_goal_problem) /\
    ((exists k, succeeded near_goal_problem (Z.to_nat 2) 2 k out /\ coin_box_rounds k l) \/
     (exhausted near_goal_problem (Z.to_nat 2) out /\
      coin_box_rounds (Z.to_nat 2 - 1) l)).
Proof.
  split; [lia|]. split; [simpl; lia|].
  apply (solve_success_exact near_goal_problem 2 2 1 2 fresh_world); [lia | simpl; lia].
Defined.

Lemma soln_path_root_to_node_witness :
  (2 < 3)%nat /\ (3 <= 3)%nat /\
  exists l,
    chain [-1; 0; 1]%Z 2 l /\
    hd 2%nat l = 2%nat /\ last l 2%nat = 0%nat /\
    (length l <= 3)%nat /\
    RRT.soln_path 3 [[0; 1]; [0; 2]; [0; 3]] [-1; 0; 1]%Z (Z.of_nat 2)
      = Ok (rev (map (row [[0; 1]; [0; 2]; [0; 3]]) l)).
Proof.
  split; [lia|]. split; [lia|].
  apply (soln_path_root_to_node 3 [[0; 1]; [0; 2]; [0; 3]] [-1; 0; 1]%Z 2 3); try lia.
  constructor; unfold parent; simpl; try lia.
  intros i Hi. destruct i as [|[|[|i]]]; simpl; lia.
Defined.

Lemma is_free_motion_iff_witness :
  (forall m l : Segment, array_equal (snd m) (fst l) = true <-> snd m = fst l) /\
  (GeometricRRT.is_free_motion (fun m l => array_equal (snd m) (fst l))
     [([1; 1], [2; 2])] [0; 0] [1; 1] = false <->
   exists line, In line [([1; 1], [2; 2])] /\ snd ([0; 0], [1; 1]) = fst line).
Proof.
  split; [intros m l; apply array_equal_iff|].
  apply (is_free_motion_iff (fun m l => array_equal (snd m) (fst l))
           (fun m l => snd m = fst l) [([1; 1], [2; 2])] [0; 0] [1; 1]).
  intros m l. apply array_equal_iff.
Defined.

(** C10: an iteration of [solve] makes one scalar draw and then one box draw,
    whatever the scalar is; when the scalar is below [goal_bias] the box
    sample is logged all the same and the goal is used in its place. *)
Theorem iteration_draws
        {D : RRT.Dynamics} {RS : RandomSource}
        (self : RRT.Problem) (fuel : nat) (eps goal_bias : R)
        (k : nat) (st : RRT.SolveState) (w : World RS) :
  let zg := uniform RS 0 1 (gen w) in
  let xg := uniform_box RS (RRT.statespace_lo self) (RRT.statespace_hi self)
                        (length (RRT.x_init self)) (snd zg) in
  let r := RRT.iteration self fuel eps goal_bias k st w in
  snd r = {| gen := snd xg;
             draws := draws w ++ [DrawScalar (fst zg); DrawBox (fst xg)] |} /\
  (fst zg < goal_bias -> fst r = RRT.extend self fuel eps k (RRT.x_goal self) st) /\
  (~ fst zg < goal_bias -> fst r = RRT.extend self fuel eps k (fst xg) st).
Proof.
  cbn zeta. unfold RRT.iteration. rewrite sample_eq. cbn zeta. cbn [fst snd].
  split; [reflexivity|]. split; intros H.
  - now rewrite Rltb_true.
  - now rewrite Rltb_false.
Qed.

(** * Further properties of the code *)

(** ** Nearest neighbour *)

(** X3: the test [threshold != 0] of line 139 never changes the decision of
    [GeometricRRT.find_nearest]: a norm is never below a threshold equal to
    0. *)
Theorem nearest_zero_threshold_guard (v : State) (threshold : xreal) :
  xlt (norm v) threshold && xnonzero threshold = xlt (norm v) threshold.
Proof.
  destruct threshold as [t|]; cbn [xlt xnonzero]; [|reflexivity].
  destruct (Reqb t 0) eqn:Ht; cbn [negb]; [|apply andb_true_r].
  apply Reqb_iff in Ht. subst t. rewrite andb_false_r. symmetry.
  apply Rltb_false. pose proof (norm_nonneg v). lra.
Qed.

Lemma dubins_kept_dec (rw : State) :
  Reqb (DubinsRRT.coord rw 0) 0 && Reqb (DubinsRRT.coord rw 1) 0
    && Reqb (DubinsRRT.coord rw 2) 0 = false <-> dubins_kept rw.
Proof.
  unfold dubins_kept. split.
  - intros H [H0 [H1 H2]]. rewrite H0, H1, H2 in H.
    rewrite Reqb_true in H by reflexivity. discriminate.
  - intros H.
    destruct (Reqb (DubinsRRT.coord rw 0) 0) eqn:E0; [|reflexivity].
    destruct (Reqb (DubinsRRT.coord rw 1) 0) eqn:E1; [|reflexivity].
    destruct (Reqb (DubinsRRT.coord rw 2) 0) eqn:E2; [|reflexivity].
    apply Reqb_iff in E0, E1, E2. now destruct H.
Qed.

(** The Dubins loop keeps the first nearest of the kept rows it has seen,
    once one of them is at a path length below 10000. *)
Lemma dubins_nearest_loop_state path_length turning_radius x rows :
  forall seen threshold nearidx,
    dubins_nearest_state path_length turning_radius x seen threshold nearidx ->
    exists t, dubins_nearest_state path_length turning_radius x (seen ++ rows) t
                (DubinsRRT.nearest_loop path_length turning_radius x rows
                   (length seen) threshold nearidx).
Proof.
  induction rows as [|rw rest IH]; intros seen threshold nearidx Hst.
  - exists threshold. rewrite app_nil_r. exact Hst.
  - cbn [DubinsRRT.nearest_loop].
    set (dist := dubins_distance path_length turning_radius x) in *.
    assert (Hnext : forall t nr,
              dubins_nearest_state path_length turning_radius x (seen ++ [rw]) t nr ->
              exists t', dubins_nearest_state path_length turning_radius x
                           (seen ++ rw :: rest) t'
                           (DubinsRRT.nearest_loop path_length turning_radius x rest
                              (S (length seen)) t nr)).
    { intros t nr H. specialize (IH (seen ++ [rw]) t nr H).
      rewrite <- app_assoc in IH. cbn [app] in IH.
      rewrite length_app in IH. cbn [length] in IH. rewrite Nat.add_1_r in IH.
      exact IH. }
    assert (Hrows : forall j, (j < length seen)%nat -> row (seen ++ [rw]) j = row seen j).
    { intros j Hj. now apply row_app_seen. }
    assert (Hq : forall j, (j < length seen)%nat -> dist (seen ++ [rw]) j = dist seen j).
    { intros j Hj. unfold dist, dubins_distance. now rewrite Hrows. }
    assert (Hqn : dist (seen ++ [rw]) (length seen) = path_length rw x turning_radius).
    { unfold dist, dubins_distance. now rewrite row_app_next. }
    assert (Hlen : length (seen ++ [rw]) = S (length seen)).
    { rewrite length_app. cbn [length]. lia. }
    destruct (Reqb (DubinsRRT.coord rw 0) 0 && Reqb (DubinsRRT.coord rw 1) 0
              && Reqb (DubinsRRT.coord rw 2) 0) eqn:Hz.
    + (* a row with three zero coordinates is skipped *)
      assert (Hskip : ~ dubins_kept rw).
      { intros H. apply dubins_kept_dec in H. congruence. }
      apply (Hnext threshold nearidx).
      destruct Hst as [[Ht [Hn Hall]] | [Ht [Hlt [Hk [Hcap [Hmin Hfirst]]]]]].
      * left. split; [assumption|]. split; [assumption|]. intros j Hj Hjk.
        rewrite Hlen in Hj. destruct (Nat.eq_dec j (length seen)) as [->|Hne].
        -- rewrite row_app_next in Hjk. contradiction.
        -- rewrite Hrows in Hjk by lia. fold dist. rewrite Hq by lia. apply Hall; [lia|assumption].
      * right. fold dist in Ht, Hcap, Hmin, Hfirst |- *.
        split; [now rewrite Hq|]. split; [rewrite Hlen; lia|].
        split; [now rewrite Hrows|]. fold dist. split; [now rewrite Hq|]. split.
        -- intros j Hj Hjk. rewrite Hlen in Hj.
           destruct (Nat.eq_dec j (length seen)) as [->|Hne].
           ++ rewrite row_app_next in Hjk. contradiction.
           ++ rewrite Hrows in Hjk by lia. rewrite !Hq by lia. apply Hmin; [lia|assumption].
        -- intros j Hj Hjk. rewrite Hrows in Hjk by lia. rewrite !Hq by lia. now apply Hfirst.
    + apply dubins_kept_dec in Hz.
      destruct (Rltb (path_length rw x turning_radius) threshold) eqn:Hc.
      * (* the row is strictly nearer: it becomes the nearest *)
        apply Rltb_iff in Hc.
        apply (Hnext (path_length rw x turning_radius) (length seen)).
        right. fold dist. split; [now rewrite Hqn|]. split; [rewrite Hlen; lia|].
        split; [now rewrite row_app_next|]. fold dist.
        assert (Hbelow : forall j, (j < length seen)%nat -> dubins_kept (row seen j) ->
                  path_length rw x turning_radius < dist seen j).
        { intros j Hj Hjk.
          destruct Hst as [[Ht [Hn Hall]] | [Ht [Hlt [Hk [Hcap [Hmin Hfirst]]]]]].
          - specialize (Hall j Hj Hjk). fold dist in Hall. lra.
          - fold dist in Ht, Hmin. specialize (Hmin j Hj Hjk). lra. }
        assert (Hcap' : path_length rw x turning_radius < 10000).
        { destruct Hst as [[Ht _] | [Ht [_ [_ [Hcap _]]]]]; [lra|].
          fold dist in Ht, Hcap. lra. }
        split; [now rewrite Hqn|]. split.
        -- intros j Hj Hjk. rewrite Hlen in Hj. rewrite Hqn.
           destruct (Nat.eq_dec j (length seen)) as [->|Hne].
           ++ rewrite Hqn. lra.
           ++ rewrite Hrows in Hjk by lia. rewrite Hq by lia.
              specialize (Hbelow j ltac:(lia) Hjk). lra.
        -- intros j Hj Hjk. rewrite Hrows in Hjk by lia. rewrite Hqn, Hq by lia.
           now apply Hbelow.
      * (* the row is not strictly nearer: nothing changes *)
        assert (Hge : threshold <= path_length rw x turning_radius).
        { destruct (Rle_or_lt threshold (path_length rw x turning_radius)) as [H|H];
            [exact H|]. apply Rltb_true in H. congruence. }
        apply (Hnext threshold nearidx).
        destruct Hst as [[Ht [Hn Hall]] | [Ht [Hlt [Hk [Hcap [Hmin Hfirst]]]]]].
        -- left. split; [assumption|]. split; [assumption|]. intros j Hj Hjk.
           rewrite Hlen in Hj. fold dist.
           destruct (Nat.eq_dec j (length seen)) as [->|Hne].
           ++ rewrite Hqn. lra.
           ++ rewrite Hrows in Hjk by lia. rewrite Hq by lia. apply Hall; [lia|assumption].
        -- right. fold dist in Ht, Hcap, Hmin, Hfirst |- *.
           split; [now rewrite Hq|]. split; [rewrite Hlen; lia|].
           split; [now rewrite Hrows|]. fold dist. split; [now rewrite Hq|]. split.
           ++ intros j Hj Hjk. rewrite Hlen in Hj. rewrite Hq by lia.
              destruct (Nat.eq_dec j (length seen)) as [->|Hne].
              ** rewrite Hqn. lra.
              ** rewrite Hrows in Hjk by lia. rewrite Hq by lia. apply Hmin; [lia|assumption].
           ++ intros j Hj Hjk. rewrite Hrows in Hjk by lia. rewrite !Hq by lia.
              now apply Hfirst.
Qed.

(** X4: [DubinsRRT.find_nearest] returns the first of the nearest rows among
    the rows of [V] that are not zero in their three first coordinates, when
    that row is at a path length below 10000; when no such row is at a path
    length below 10000 it returns 0. *)
Theorem dubins_find_nearest_first_nearest
        (path_length : State -> State -> R -> R) (turning_radius : R)
        (V : list State) (x : State) :
  let r := DubinsRRT.find_nearest path_length turning_radius V x in
  (r = 0%nat /\
   forall j, (j < length V)%nat -> dubins_kept (row V j) ->
             10000 <= dubins_distance path_length turning_radius x V j) \/
  dubins_first_nearest path_length turning_radius x V r.
Proof.
  cbn zeta. unfold DubinsRRT.find_nearest.
  assert (H0 : dubins_nearest_state path_length turning_radius x [] 10000 0).
  { left. split; [reflexivity|]. split; [reflexivity|]. cbn [length]. intros j Hj. lia. }
  destruct (dubins_nearest_loop_state path_length turning_radius x V [] 10000 0%nat H0) as [t H].
  cbn [app length] in H.
  destruct H as [[_ [Hn Hall]] | [_ Hf]]; [left; now split | now right].
Qed.

(** ** Collision tests *)

Lemma is_free_motion_forall lli (obstacles : list Segment) (x1 x2 : State) :
  GeometricRRT.is_free_motion lli obstacles x1 x2 = true <->
  forall line, In line obstacles -> lli (x1, x2) line = false.
Proof.
  induction obstacles as [|line rest IH]; cbn [GeometricRRT.is_free_motion].
  - split; [intros _ l []|reflexivity].
  - destruct (lli (x1, x2) line) eqn:Hl.
    + split; [discriminate|]. intros H. specialize (H line (or_introl eq_refl)). congruence.
    + rewrite IH. split.
      * intros H l [<-|Hin]; [exact Hl|now apply H].
      * intros H l Hin. apply H. now right.
Qed.

(** X8: removing walls, or listing them in another order or more than once,
    never blocks a motion that was free. *)
Theorem is_free_motion_monotone
        (line_line_intersection : Segment -> Segment -> bool)
        (obstacles1 obstacles2 : list Segment) (x1 x2 : State) :
  incl obstacles1 obstacles2 ->
  GeometricRRT.is_free_motion line_line_intersection obstacles2 x1 x2 = true ->
  GeometricRRT.is_free_motion line_line_intersection obstacles1 x1 x2 = true.
Proof.
  intros Hincl H. apply is_free_motion_forall. intros line Hin.
  apply (proj1 (is_free_motion_forall _ _ _ _) H). now apply Hincl.
Qed.

Lemma is_free_motion_monotone_witness :
  let touch := fun m l : Segment => array_equal (snd m) (fst l) in
  let wall1 := ([5; 5], [6; 6]) in
  let wall2 := ([7; 7], [8; 8]) in
  incl [wall2; wall2] [wall1; wall2] /\
  GeometricRRT.is_free_motion touch [wall2; wall2] [0; 0] [1; 1] = true.
Proof.
  cbn zeta.
  assert (Hincl : incl [([7; 7], [8; 8]); ([7; 7], [8; 8])]
                       [([5; 5], [6; 6]); ([7; 7], [8; 8])]).
  { intros l [<-|[<-|[]]]; right; now left. }
  split; [exact Hincl|].
  apply (is_free_motion_monotone _ _ _ [0; 0] [1; 1] Hincl).
  cbn [GeometricRRT.is_free_motion snd fst array_equal].
  rewrite (Reqb_false 1 5) by lra. cbn [andb].
  rewrite (Reqb_false 1 7) by lra. reflexivity.
Defined.

Lemma piece_hits_iff lli (obstacles : list Segment) (a b : State) :
  DubinsRRT.piece_hits lli obstacles a b = true <->
  exists line, In line obstacles /\ lli (DubinsRRT.xy a, DubinsRRT.xy b) line = true.
Proof.
  induction obstacles as [|line rest IH]; cbn [DubinsRRT.piece_hits].
  - split; [discriminate|]. intros [l [[] _]].
  - destruct (lli (DubinsRRT.xy a, DubinsRRT.xy b) line) eqn:Hl.
    + split; [|reflexivity]. intros _. exists line. split; [now left|exact Hl].
    + rewrite IH. split.
      * intros [l [Hin H]]. exists l. split; [now right|exact H].
      * intros [l [[<-|Hin] H]]; [congruence|]. now exists l.
Qed.

Lemma pieces_free_false_iff lli (obstacles : list Segment) (pts : list State) :
  DubinsRRT.pieces_free lli obstacles pts = false <->
  exists i a b,
    nth_error pts i = Some a /\ nth_error pts (S i) = Some b /\
    DubinsRRT.piece_hits lli obstacles a b = true.
Proof.
  induction pts as [|a rest IH].
  - cbn. split; [discriminate|]. intros [i [a [b [H _]]]]. destruct i; discriminate.
  - destruct rest as [|b rest'].
    + cbn [DubinsRRT.pieces_free]. split; [discriminate|].
      intros [i [a' [b' [_ [H _]]]]]. destruct i as [|[|i]]; discriminate.
    + cbn [DubinsRRT.pieces_free].
      destruct (DubinsRRT.piece_hits lli obstacles a b) eqn:Hh.
      * split; [|reflexivity]. intros _. exists 0%nat, a, b. now repeat split.
      * rewrite IH. split.
        -- intros [i [a' [b' [H1 [H2 H3]]]]]. exists (S i), a', b'. now repeat split.
        -- intros [i [a' [b' [H1 [H2 H3]]]]]. destruct i as [|i].
           ++ cbn in H1, H2. injection H1 as <-. injection H2 as <-. congruence.
           ++ exists i, a', b'. now repeat split.
Qed.

(** X9: [DubinsRRT.is_free_motion] is false exactly when, for two
    consecutive points of the sampled path followed by [x2], the segment
    between their two first coordinates intersects a wall.  When the sample
    has no point, the motion is free whatever the walls are. *)
Theorem dubins_motion_free_iff
        (path_sample : State -> State -> R -> R -> list State * list R)
        (line_line_intersection : Segment -> Segment -> bool)
        (turning_radius : R)
        (obstacles : list Segment) (x1 x2 : State) (resolution : R) :
  let pts := fst (path_sample x1 x2 turning_radius (turning_radius * resolution)) ++ [x2] in
  (DubinsRRT.is_free_motion path_sample line_line_intersection turning_radius
     obstacles x1 x2 resolution = false <->
   exists i a b line,
     nth_error pts i = Some a /\ nth_error pts (S i) = Some b /\
     In line obstacles /\
     line_line_intersection (DubinsRRT.xy a, DubinsRRT.xy b) line = true) /\
  (fst (path_sample x1 x2 turning_radius (turning_radius * resolution)) = [] ->
   DubinsRRT.is_free_motion path_sample line_line_intersection turning_radius
     obstacles x1 x2 resolution = true).
Proof.
  cbn zeta. unfold DubinsRRT.is_free_motion. split.
  - rewrite pieces_free_false_iff. split.
    + intros [i [a [b [H1 [H2 H3]]]]]. apply piece_hits_iff in H3.
      destruct H3 as [line [Hin Hl]]. exists i, a, b, line. now repeat split.
    + intros [i [a [b [line [H1 [H2 [Hin Hl]]]]]]]. exists i, a, b.
      split; [exact H1|]. split; [exact H2|]. apply piece_hits_iff. now exists line.
  - intros ->. reflexivity.
Qed.

(** ** Paths in a tree *)

Lemma chain_head P i l : chain P i l -> exists l', l = i :: l'.
Proof. intros [j H | j p l' Hp Hc]; eexists; reflexivity. Qed.

Lemma last_default_indep {A} (l : list A) d1 d2 : l <> [] -> last l d1 = last l d2.
Proof.
  induction l as [|a l IH]; intros H; [congruence|].
  destruct l as [|b l']; [reflexivity|].
  change (last (b :: l') d1 = last (b :: l') d2). apply IH. discriminate.
Qed.

Lemma chain_ends_at_root P i l :
  parents_backward P -> occupied P i -> chain P i l -> last l i = 0%nat.
Proof.
  intros [Hroot Hlinks] Hocc Hc. induction Hc as [i H | i p l Hp Hc IH].
  - destruct Hocc as [-> | [_ Hne]]; [reflexivity|contradiction].
  - assert (Hi0 : i <> 0%nat) by (intros ->; lia).
    assert (Hil : (i < length P)%nat).
    { destruct (Nat.lt_ge_cases i (length P)) as [Hlt|Hge]; [exact Hlt|].
      unfold parent in Hp. rewrite nth_overflow in Hp by assumption. lia. }
    destruct (Hlinks i ltac:(lia) ltac:(lia)) as [p' [Hp' [_ Hoccp]]].
    assert (p' = p) by lia. subst p'.
    specialize (IH Hoccp).
    destruct (chain_head P p l Hc) as [l' ->].
    change (last (i :: p :: l') i) with (last (p :: l') i).
    rewrite (last_default_indep (p :: l') i p) by discriminate. exact IH.
Qed.

Lemma linked_snoc E (xs : list State) a b :
  linked E (xs ++ [a]) -> E a b -> linked E ((xs ++ [a]) ++ [b]).
Proof.
  induction xs as [|c xs IH]; intros Hl Hab.
  - cbn. now split.
  - destruct xs as [|c' xs'].
    + cbn in Hl |- *. destruct Hl as [Hca _]. now repeat split.
    + cbn [app linked] in Hl |- *. destruct Hl as [Hcc Hl]. split; [exact Hcc|].
      apply IH; assumption.
Qed.

(** The rows of a chain, read from its end, are linked by the relation that
    links every slot to its parent. *)
Lemma chain_linked E (V : list State) (P : list Z) :
  parent P 0 = (-1)%Z -> edges_ok E V P ->
  forall i l, chain P i l -> linked E (rev (map (row V) l)).
Proof.
  intros Hroot Hedges i l Hc. induction Hc as [i H | i p l Hp Hc IH].
  - cbn. exact I.
  - destruct (chain_head P p l Hc) as [l' ->].
    cbn [map rev] in IH |- *. apply linked_snoc; [exact IH|].
    apply Hedges; [|exact Hp]. split.
    + destruct i; [lia|lia].
    + destruct (Nat.lt_ge_cases i (length P)) as [Hlt|Hge]; [exact Hlt|].
      unfold parent in Hp. rewrite nth_overflow in Hp by assumption. lia.
Qed.

(** X10: the second loop of [soln_path] appends the states of the walk in
    reverse order and raises nothing. *)
Theorem build_path_reverses (entire_path soln : list State) :
  RRT.build_path entire_path (xrange_down (length entire_path)) soln
    = Ok (soln ++ rev entire_path).
Proof. rewrite build_path_firstn by lia. now rewrite firstn_all. Qed.

Lemma walk_parents_self_parent (V : list State) (P : list Z) (i : nat) :
  (i < length V)%nat -> (i < length P)%nat -> parent P i = Z.of_nat i ->
  forall fuel acc, RRT.walk_parents fuel V P (Z.of_nat i) acc = OutOfFuel.
Proof.
  intros HV HP Hself. induction fuel as [|fuel IH]; intros acc; cbn [RRT.walk_parents];
    replace (Z.of_nat i >? -1)%Z with true by (symmetry; apply Z.gtb_lt; lia);
    [reflexivity|].
  rewrite Nat2Z.id.
  rewrite (getitem_nth V i []) by assumption.
  rewrite (getitem_nth P i (-1)%Z) by assumption.
  cbn [bind]. fold (parent P i). rewrite Hself. apply IH.
Qed.

(** X11: [soln_path] has no guard against a cycle: started at a slot that is
    its own parent, its [while] loop is still running after any number of
    steps. *)
Theorem soln_path_self_parent_diverges (V : list State) (P : list Z) (i fuel : nat) :
  (i < length V)%nat -> (i < length P)%nat -> parent P i = Z.of_nat i ->
  RRT.soln_path fuel V P (Z.of_nat i) = OutOfFuel.
Proof.
  intros HV HP Hself. unfold RRT.soln_path.
  now rewrite walk_parents_self_parent.
Qed.

Lemma soln_path_self_parent_diverges_witness :
  RRT.soln_path 1000 [[0; 1]; [0; 2]] [-1; 1]%Z (Z.of_nat 1) = OutOfFuel.
Proof.
  apply (soln_path_self_parent_diverges [[0; 1]; [0; 2]] [-1; 1]%Z 1 1000);
    [simpl; lia | simpl; lia | reflexivity].
Defined.

(** X12: the bounds of [soln_path].  From an index below 0 the path is empty;
    from an index past the last row of [V] the first read raises
    [IndexError]. *)
Theorem soln_path_bounds (V : list State) (P : list Z) (fuel : nat) :
  (forall lastidx, (lastidx <= -1)%Z -> RRT.soln_path fuel V P lastidx = Ok []) /\
  (forall i, (length V <= i)%nat ->
     RRT.soln_path (S fuel) V P (Z.of_nat i) = Raise IndexError).
Proof.
  split.
  - intros lastidx H. unfold RRT.soln_path.
    assert (Hw : RRT.walk_parents fuel V P lastidx [] = Ok []).
    { destruct fuel; cbn [RRT.walk_parents];
        replace (lastidx >? -1)%Z with false by (symmetry; rewrite Z.gtb_ltb; apply Z.ltb_ge; lia);
        reflexivity. }
    rewrite Hw. reflexivity.
  - intros i Hi. unfold RRT.soln_path. cbn [RRT.walk_parents].
    replace (Z.of_nat i >? -1)%Z with true by (symmetry; apply Z.gtb_lt; lia).
    rewrite Nat2Z.id. unfold getitem at 1.
    replace (nth_error V i) with (@None State) by (symmetry; now apply nth_error_None).
    reflexivity.
Qed.

(** ** Invariants of the loop of [solve] *)

Section LoopInvariants.
Context {D : RRT.Dynamics} {RS : RandomSource} {HD : NearestWritten D}.
Variable self : RRT.Problem.
Variable fuel : nat.
Variable eps goal_bias : R.
Variable m : nat.
Hypothesis fuel_enough : (m <= fuel)%nat.

(** The two ways the body of the loop ends without error: the motion is
    blocked and the tree is left as it is, or the new state is written in
    slot [k] with the nearest slot as parent. *)
Lemma extend_cases k xrand st st' b :
  RRT.extend self fuel eps k xrand st = Ok (st', b) ->
  let i := RRT.find_nearest (RRT.V st) xrand in
  let xnear := row (RRT.V st) i in
  let xnew := RRT.steer_towards xnear xrand eps in
  (RRT.is_free_motion (RRT.obstacles self) xnear xnew = false /\ st' = st /\ b = false) \/
  (RRT.is_free_motion (RRT.obstacles self) xnear xnew = true /\
   RRT.V st' = list_set (RRT.V st) k xnew /\
   RRT.P st' = list_set (RRT.P st) k (Z.of_nat i) /\
   RRT.n st' = RRT.n st /\
   (k < length (RRT.V st))%nat /\ (k < length (RRT.P st))%nat).
Proof.
  cbn zeta. unfold RRT.extend, getitem.
  destruct (nth_error (RRT.V st) (RRT.find_nearest (RRT.V st) xrand)) as [xnear|] eqn:En;
    [|discriminate].
  cbn [bind]. rewrite (nth_error_nth _ _ [] En : row _ _ = xnear).
  destruct (RRT.is_free_motion (RRT.obstacles self) xnear
              (RRT.steer_towards xnear xrand eps)) eqn:Hfree.
  2:{ intros H. injection H as <- <-. now left. }
  unfold setitem.
  destruct (k <? length (RRT.V st))%nat eqn:HkV; [|discriminate].
  destruct (k <? length (RRT.P st))%nat eqn:HkP; [|discriminate].
  apply Nat.ltb_lt in HkV, HkP. cbn [bind].
  destruct (array_equal (RRT.steer_towards xnear xrand eps) (RRT.x_goal self)).
  - destruct (RRT.soln_path fuel _ _ (Z.of_nat k)) as [path | e |]; cbn [bind];
      try discriminate.
    intros H. injection H as <- <-. right. cbn [RRT.V RRT.P RRT.n]. now repeat split.
  - intros H. injection H as <- <-. right. cbn [RRT.V RRT.P RRT.n]. now repeat split.
Qed.

(** A property of the tree that every run of the body keeps is kept by the
    loop. *)
Lemma for_loop_preserves (J : RRT.SolveState -> Prop) :
  (forall k st xrand st' b,
     running self m k st -> (k < m)%nat -> J st ->
     RRT.extend self fuel eps k xrand st = Ok (st', b) -> J st') ->
  forall cnt k st (w : World RS),
    running self m k st -> J st -> (k + cnt = m)%nat ->
    forall out w',
      RRT.for_loop self fuel eps goal_bias (seq k cnt) st w = (Ok out, w') -> J out.
Proof.
  intros HJ. induction cnt as [|cnt IH]; intros k st w Hrun Hst Hk out w'.
  - cbn [seq RRT.for_loop]. intros H. injection H as <- _. exact Hst.
  - cbn [seq RRT.for_loop]. unfold RRT.iteration. rewrite sample_eq. cbn zeta.
    set (xrand := if Rltb _ goal_bias then RRT.x_goal self else _).
    set (w1 := Build_World RS _ _).
    destruct (extend_running self fuel eps m fuel_enough k st xrand Hrun ltac:(lia))
      as [st1 [b [He [_ [[-> Hr] | [-> _]]]]]]; rewrite He.
    + apply (IH (S k) st1 w1 Hr); [|lia]. apply (HJ k st xrand st1 false); try assumption. lia.
    + intros H. injection H as <- _. apply (HJ k st xrand st1 true); try assumption. lia.
Qed.

Lemma solve_preserves (J : RRT.SolveState -> Prop) (max_iters : Z) :
  (forall k st xrand st' b,
     running self m k st -> (k < m)%nat -> J st ->
     RRT.extend self fuel eps k xrand st = Ok (st', b) -> J st') ->
  (forall st, RRT.init self max_iters = Ok st -> J st) ->
  (1 <= max_iters)%Z -> m = Z.to_nat max_iters ->
  forall (w : World RS) out w',
    RRT.solve self fuel eps goal_bias max_iters w = (Ok out, w') -> J out.
Proof.
  intros HJ Hinit Hpos Hm w out w'.
  destruct (init_running self fuel m fuel_enough max_iters Hpos Hm) as [st [Hi Hrun]].
  unfold RRT.solve. rewrite Hi. unfold range1. rewrite <- Hm.
  apply (for_loop_preserves J HJ (m - 1) 1 st w Hrun (Hinit st Hi)). lia.
Qed.

(** A relation that holds between a state and the state steered from it
    along a free motion holds on every edge of the tree. *)
Lemma extend_edges (E : State -> State -> Prop) :
  (forall xnear xrand,
     RRT.is_free_motion (RRT.obstacles self) xnear (RRT.steer_towards xnear xrand eps) = true ->
     E xnear (RRT.steer_towards xnear xrand eps)) ->
  forall k st xrand st' b,
    running self m k st -> (k < m)%nat ->
    edges_ok E (RRT.V st) (RRT.P st) ->
    RRT.extend self fuel eps k xrand st = Ok (st', b) ->
    edges_ok E (RRT.V st') (RRT.P st').
Proof.
  intros HE k st xrand st' b Hrun Hkm Hedges He.
  destruct (nearest_before self fuel m fuel_enough k st xrand Hrun) as [Hik _].
  destruct (extend_cases k xrand st st' b He) as [[_ [-> _]] | [Hfree [HV [HP [_ [HkV HkP]]]]]];
    [exact Hedges|].
  destruct Hrun as [[HlV HlP _ _ [Hr0 Hlinks] _] _ Hunw _ _ _].
  rewrite HV, HP. intros j p Hj Hp. rewrite list_set_length in Hj.
  unfold parent in Hp. unfold row.
  destruct (Nat.eq_dec j k) as [->|Hne].
  - rewrite nth_list_set_eq in Hp by lia. apply Nat2Z.inj in Hp. subst p.
    rewrite nth_list_set_eq by lia. rewrite nth_list_set_neq by lia.
    apply HE. exact Hfree.
  - rewrite nth_list_set_neq in Hp by congruence. fold (parent (RRT.P st) j) in Hp.
    assert (Hjk : (j < k)%nat).
    { destruct (Nat.lt_ge_cases j k) as [H|H]; [exact H|].
      destruct (Hunw j ltac:(lia)) as [_ Hm1]. lia. }
    destruct (Hlinks j Hj ltac:(lia)) as [p' [Hp' [Hlt _]]].
    assert (p' = p) by lia. subst p'.
    rewrite !nth_list_set_neq by lia. now apply Hedges.
Qed.

Lemma init_edges (E : State -> State -> Prop) (max_iters : Z) st :
  RRT.init self max_iters = Ok st -> edges_ok E (RRT.V st) (RRT.P st).
Proof.
  unfold RRT.init, np_zeros, np_minus_ones.
  destruct (max_iters <? 0)%Z; [discriminate|]. cbn [bind].
  destruct (setitem _ 0 (RRT.x_init self)) as [V1 | e |]; cbn [bind]; try discriminate.
  intros H. injection H as <-. cbn [RRT.V RRT.P].
  intros j p _ Hp. unfold parent in Hp. rewrite nth_repeat in Hp. lia.
Qed.

Lemma solve_edges (E : State -> State -> Prop) (max_iters : Z) :
  (forall xnear xrand,
     RRT.is_free_motion (RRT.obstacles self) xnear (RRT.steer_towards xnear xrand eps) = true ->
     E xnear (RRT.steer_towards xnear xrand eps)) ->
  (1 <= max_iters)%Z -> m = Z.to_nat max_iters ->
  forall (w : World RS) out w',
    RRT.solve self fuel eps goal_bias max_iters w = (Ok out, w') ->
    edges_ok E (RRT.V out) (RRT.P out).
Proof.
  intros HE Hpos Hm.
  apply (solve_preserves (fun st => edges_ok E (RRT.V st) (RRT.P st)) max_iters);
    try assumption.
  - intros k st xrand st' b Hrun Hk Hst He. exact (extend_edges E HE k st xrand st' b Hrun Hk Hst He).
  - intros st Hi. exact (init_edges E max_iters st Hi).
Qed.
End LoopInvariants.

(** ** The tree and the path that [solve] returns *)

(** X13: the tree that [solve] returns has [max_iters] rows in [V] and in
    [P]; its row 0 is [x_init], its counter [n] is 1, and every slot after
    the root without a recorded parent still holds the row of zeros of the
    allocation. *)
Theorem solve_tree_shape
        {D : RRT.Dynamics} {RS : RandomSource} {HD : NearestWritten D}
        (self : RRT.Problem) (fuel : nat) (eps goal_bias : R) (max_iters : Z)
        (w : World RS) :
  (1 <= max_iters)%Z ->
  (Z.to_nat max_iters <= fuel)%nat ->
  exists out w',
    RRT.solve self fuel eps goal_bias max_iters w = (Ok out, w') /\
    length (RRT.V out) = Z.to_nat max_iters /\
    length (RRT.P out) = Z.to_nat max_iters /\
    row (RRT.V out) 0 = RRT.x_init self /\
    RRT.n out = 1%Z /\
    forall i, (0 < i < Z.to_nat max_iters)%nat -> parent (RRT.P out) i = (-1)%Z ->
      row (RRT.V out) i = zeros (length (RRT.x_init self)).
Proof.
  intros Hm Hfuel.
  destruct (solve_running self fuel eps goal_bias (Z.to_nat max_iters) Hfuel max_iters w Hm eq_refl)
    as [out [w' [l [Hs [_ [[HlV HlP Hn HrV _ Hgaps] _]]]]]].
  exists out, w'. now repeat split.
Qed.

Lemma solve_tree_shape_witness :
  (1 <= 2)%Z /\ (Z.to_nat 2 <= 2)%nat /\
  exists out w',
    RRT.solve (D := geometric_dynamics no_intersection) near_goal_problem 2 2 1 2 fresh_world
      = (Ok out, w') /\
    length (RRT.V out) = Z.to_nat 2.
Proof.
  split; [lia|]. split; [simpl; lia|].
  destruct (solve_tree_shape (D := geometric_dynamics no_intersection)
              near_goal_problem 2 2 1 2 fresh_world)
    as [out [w' [Hs [HV _]]]]; [lia | simpl; lia |].
  now exists out, w'.
Defined.

(** X14: every edge of the tree that [solve] returns is a motion that
    [is_free_motion] accepts: from the state of the parent slot to the state
    of the slot. *)
Theorem solve_edges_free
        {D : RRT.Dynamics} {RS : RandomSource} {HD : NearestWritten D}
        (self : RRT.Problem) (fuel : nat) (eps goal_bias : R) (max_iters : Z)
        (w : World RS) :
  (1 <= max_iters)%Z ->
  (Z.to_nat max_iters <= fuel)%nat ->
  exists out w',
    RRT.solve self fuel eps goal_bias max_iters w = (Ok out, w') /\
    forall i p, (0 < i < length (RRT.P out))%nat -> parent (RRT.P out) i = Z.of_nat p ->
      RRT.is_free_motion (RRT.obstacles self) (row (RRT.V out) p) (row (RRT.V out) i) = true.
Proof.
  intros Hm Hfuel.
  destruct (solve_running self fuel eps goal_bias (Z.to_nat max_iters) Hfuel max_iters w Hm eq_refl)
    as [out [w' [l [Hs _]]]].
  exists out, w'. split; [exact Hs|].
  apply (solve_edges self fuel eps goal_bias (Z.to_nat max_iters) Hfuel
           (fun a b => RRT.is_free_motion (RRT.obstacles self) a b = true) max_iters
           (fun _ _ H => H) Hm eq_refl w out w' Hs).
Qed.

Lemma solve_edges_free_witness :
  (1 <= 2)%Z /\ (Z.to_nat 2 <= 2)%nat /\
  exists out w',
    RRT.solve (D := geometric_dynamics no_intersection) near_goal_problem 2 2 1 2 fresh_world
      = (Ok out, w') /\
    forall i p, (0 < i < length (RRT.P out))%nat -> parent (RRT.P out) i = Z.of_nat p ->
      GeometricRRT.is_free_motion no_intersection (RRT.obstacles near_goal_problem)
        (row (RRT.V out) p) (row (RRT.V out) i) = true.
Proof.
  split; [lia|]. split; [simpl; lia|].
  refine (solve_edges_free (D := geometric_dynamics no_intersection)
            near_goal_problem 2 2 1 2 fresh_world _ _); [lia | simpl; lia].
Defined.

(** The path of a successful run, for a relation [E] that holds along every
    free steering step. *)
Lemma solve_path_route
      {D : RRT.Dynamics} {RS : RandomSource} {HD : NearestWritten D}
      (self : RRT.Problem) (fuel : nat) (eps goal_bias : R) (max_iters : Z)
      (w : World RS) (E : State -> State -> Prop) :
  (forall xnear xrand,
     RRT.is_free_motion (RRT.obstacles self) xnear (RRT.steer_towards xnear xrand eps) = true ->
     E xnear (RRT.steer_towards xnear xrand eps)) ->
  (1 <= max_iters)%Z ->
  (Z.to_nat max_iters <= fuel)%nat ->
  exists out w',
    RRT.solve self fuel eps goal_bias max_iters w = (Ok out, w') /\
    (RRT.success out = true ->
     (exists mid, RRT.solution_path out = RRT.x_init self :: mid ++ [RRT.x_goal self]) /\
     (length (RRT.solution_path out) <= Z.to_nat max_iters)%nat /\
     linked E (RRT.solution_path out)).
Proof.
  intros HE Hm Hfuel. set (m := Z.to_nat max_iters) in *.
  destruct (solve_running self fuel eps goal_bias m Hfuel max_iters w Hm eq_refl)
    as [out [w' [l [Hs [_ [Hok Hend]]]]]].
  exists out, w'. split; [exact Hs|]. intros Hsucc.
  destruct Hend as [[[Hf _] _] | [k [Hk [[_ [_ [Hpk [Hrow [_ [_ Hsp]]]]]] _]]]]; [congruence|].
  pose proof (solve_edges self fuel eps goal_bias m Hfuel E max_iters
                HE Hm eq_refl w out w' Hs) as Hedges.
  pose proof (backward_cases self fuel m Hfuel out Hok) as Hcases.
  destruct Hok as [HlV HlP _ HrV Hback _].
  destruct (soln_path_of_chain (RRT.V out) (RRT.P out) k fuel) as [c [Hc [Hlen [_ Hsp']]]];
    try lia.
  { intros j _. apply Hcases. }
  rewrite Hsp in Hsp'. injection Hsp' as Hpath.
  assert (Hocc : occupied (RRT.P out) k) by (right; split; [lia|exact Hpk]).
  pose proof (chain_ends_at_root _ _ _ Hback Hocc Hc) as Hlast.
  destruct (chain_head _ _ _ Hc) as [c' ->].
  assert (Hc' : c' <> []).
  { intros ->. cbn in Hlast. lia. }
  destruct (exists_last Hc') as [c0 [z Hz]]. subst c'.
  change (last (k :: c0 ++ [z]) k) with (last ((k :: c0) ++ [z]) k) in Hlast.
  rewrite last_last in Hlast. subst z.
  split; [|split].
  - exists (rev (map (row (RRT.V out)) c0)). rewrite Hpath.
    cbn [map rev]. rewrite map_app, rev_app_distr. cbn [map rev app].
    now rewrite HrV, Hrow.
  - rewrite Hpath, length_rev, length_map. lia.
  - rewrite Hpath. apply (chain_linked _ _ _ (proj1 Hback) Hedges k _ Hc).
Qed.

(** X16: when [solve] succeeds, its path starts with [x_init], ends with
    [x_goal], has at most [max_iters] states, and every motion from one of
    its states to the next is accepted by [is_free_motion]. *)
Theorem solve_path_is_free_route
        {D : RRT.Dynamics} {RS : RandomSource} {HD : NearestWritten D}
        (self : RRT.Problem) (fuel : nat) (eps goal_bias : R) (max_iters : Z)
        (w : World RS) :
  (1 <= max_iters)%Z ->
  (Z.to_nat max_iters <= fuel)%nat ->
  exists out w',
    RRT.solve self fuel eps goal_bias max_iters w = (Ok out, w') /\
    (RRT.success out = true ->
     (exists mid, RRT.solution_path out = RRT.x_init self :: mid ++ [RRT.x_goal self]) /\
     (length (RRT.solution_path out) <= Z.to_nat max_iters)%nat /\
     linked (fun a b => RRT.is_free_motion (RRT.obstacles self) a b = true)
            (RRT.solution_path out)).
Proof.
  intros Hm Hfuel.
  exact (solve_path_route self fuel eps goal_bias max_iters w
           (fun a b => RRT.is_free_motion (RRT.obstacles self) a b = true)
           (fun _ _ H => H) Hm Hfuel).
Qed.

Lemma solve_path_is_free_route_witness :
  (1 <= 2)%Z /\ (Z.to_nat 2 <= 2)%nat /\
  exists out w',
    RRT.solve (D := geometric_dynamics no_intersection) near_goal_problem 2 2 1 2 fresh_world
      = (Ok out, w') /\
    (RRT.success out = true ->
     (exists mid, RRT.solution_path out
                  = RRT.x_init near_goal_problem :: mid ++ [RRT.x_goal near_goal_problem]) /\
     (length (RRT.solution_path out) <= Z.to_nat 2)%nat /\
     linked (fun a b => GeometricRRT.is_free_motion no_intersection
                          (RRT.obstacles near_goal_problem) a b = true)
            (RRT.solution_path out)).
Proof.
  split; [lia|]. split; [simpl; lia|].
  refine (solve_path_is_free_route (D := geometric_dynamics no_intersection)
            near_goal_problem 2 2 1 2 fresh_world _ _); [lia | simpl; lia].
Defined.

(** X17: when [is_free_motion] rejects every motion, [solve] returns the
    tree of the allocation with the root alone, no success and no path, and
    still makes the draws of all its [max_iters - 1] iterations. *)
Theorem solve_all_blocked
        {D : RRT.Dynamics} {RS : RandomSource} {HD : NearestWritten D}
        (self : RRT.Problem) (fuel : nat) (eps goal_bias : R) (max_iters : Z)
        (w : World RS) :
  (forall a b, RRT.is_free_motion (RRT.obstacles self) a b = false) ->
  (1 <= max_iters)%Z ->
  (Z.to_nat max_iters <= fuel)%nat ->
  exists (w' : World RS) l,
    RRT.solve self fuel eps goal_bias max_iters w =
      (Ok {| RRT.V := RRT.x_init self
                        :: repeat (zeros (length (RRT.x_init self))) (Z.to_nat max_iters - 1);
             RRT.P := repeat (-1)%Z (Z.to_nat max_iters);
             RRT.n := 1;
             RRT.success := false;
             RRT.solution_path := [] |}, w') /\
    draws w' = draws w ++ l /\
    coin_box_rounds (Z.to_nat max_iters - 1) l.
Proof.
  intros Hblocked Hm Hfuel. set (m := Z.to_nat max_iters) in *.
  set (st0 := {| RRT.V := RRT.x_init self :: repeat (zeros (length (RRT.x_init self))) (m - 1);
                 RRT.P := repeat (-1)%Z m; RRT.n := 1%Z;
                 RRT.success := false; RRT.solution_path := [] |}).
  assert (Hinit : RRT.init self max_iters = Ok st0).
  { unfold RRT.init, np_zeros, np_minus_ones.
    replace (max_iters <? 0)%Z with false by (symmetry; apply Z.ltb_ge; lia).
    cbn [bind]. fold m. destruct m as [|m'] eqn:Em; [lia|].
    unfold st0. replace (S m' - 1)%nat with m' by lia. reflexivity. }
  destruct (solve_running self fuel eps goal_bias m Hfuel max_iters w Hm eq_refl)
    as [out [w' [l [Hs [Hd [_ Hend]]]]]].
  assert (Hout : out = st0).
  { apply (solve_preserves self fuel eps goal_bias m Hfuel (fun st => st = st0) max_iters)
      with (w := w) (w' := w'); try assumption; try reflexivity.
    - intros k st xrand st' b _ _ -> He.
      destruct (extend_cases self fuel eps k xrand st0 st' b He) as [[_ [-> _]] | [Hfree _]];
        [reflexivity|]. rewrite Hblocked in Hfree. discriminate.
    - intros st Hi. rewrite Hinit in Hi. now injection Hi as <-. }
  subst out. exists w', l. split; [exact Hs|]. split; [exact Hd|].
  destruct Hend as [[_ Hr] | [k [_ [[Hsucc _] _]]]]; [exact Hr|].
  cbn in Hsucc. discriminate.
Qed.

Lemma solve_all_blocked_witness :
  let walled := {| RRT.statespace_lo := [-5; -5]; RRT.statespace_hi := [5; 5];
                   RRT.x_init := [0; 1]; RRT.x_goal := [0; 2];
                   RRT.obstacles := [([0; 0], [1; 1])] |} in
  let always := fun _ _ : Segment => true in
  (forall a b, GeometricRRT.is_free_motion always (RRT.obstacles walled) a b = false) /\
  exists (w' : World low_end_source) l,
    RRT.solve (D := geometric_dynamics always) walled 3 1 0 3 fresh_world =
      (Ok {| RRT.V := [[0; 1]; [0; 0]; [0; 0]]; RRT.P := [-1; -1; -1]%Z; RRT.n := 1;
             RRT.success := false; RRT.solution_path := [] |}, w') /\
    draws w' = draws fresh_world ++ l /\
    coin_box_rounds 2 l.
Proof.
  cbn zeta. split; [reflexivity|].
  refine (solve_all_blocked (D := geometric_dynamics (fun _ _ => true))
            {| RRT.statespace_lo := [-5; -5]; RRT.statespace_hi := [5; 5];
               RRT.x_init := [0; 1]; RRT.x_goal := [0; 2];
               RRT.obstacles := [([0; 0], [1; 1])] |} 3 1 0 3 fresh_world _ _ _);
    [reflexivity | lia | simpl; lia].
Defined.

(** ** The segments of [plot_tree] *)

Lemma filter_index_length {A} (f : A -> bool) (d : A) (l : list A) :
  forall s,
    length (filter (fun i => f (nth (i - s) l d)) (seq s (length l))) = length (filter f l).
Proof.
  induction l as [|a l IH]; intros s; [reflexivity|].
  assert (Hrest : filter (fun i => f (nth (i - s) (a :: l) d)) (seq (S s) (length l))
                  = filter (fun i => f (nth (i - S s) l d)) (seq (S s) (length l))).
  { apply filter_ext_in. intros i Hi. apply in_seq in Hi.
    replace (i - s)%nat with (S (i - S s)) by lia. reflexivity. }
  change (seq s (length (a :: l))) with (s :: seq (S s) (length l)).
  change (filter (fun i => f (nth (i - s) (a :: l) d)) (s :: seq (S s) (length l)))
    with (if f (nth (s - s) (a :: l) d)
          then s :: filter (fun i => f (nth (i - s) (a :: l) d)) (seq (S s) (length l))
          else filter (fun i => f (nth (i - s) (a :: l) d)) (seq (S s) (length l))).
  rewrite Hrest, Nat.sub_diag. cbn [nth filter].
  destruct (f a); cbn [length]; now rewrite IH.
Qed.

Lemma plot_tree_loop_ok (V : list State) (P : list Z) :
  forall idxs,
    (forall i, In i idxs ->
       (i < length V)%nat /\ (i < length P)%nat /\
       (parent P i = (-1)%Z \/
        exists p, parent P i = Z.of_nat p /\ (p < length V)%nat)) ->
    plot_tree_loop V P idxs =
      Ok (map (fun i => (row V (Z.to_nat (parent P i)), row V i))
              (filter (fun i => (parent P i >=? 0)%Z) idxs)).
Proof.
  induction idxs as [|i rest IH]; intros H; [reflexivity|].
  destruct (H i (or_introl eq_refl)) as [HiV [HiP Hp]].
  assert (Hrest := IH (fun j Hj => H j (or_intror Hj))).
  cbn [plot_tree_loop filter]. rewrite (getitem_nth P i (-1)%Z) by assumption.
  cbn [bind]. fold (parent P i).
  destruct Hp as [Hp | [p [Hp Hlt]]]; rewrite Hp.
  - cbn. exact Hrest.
  - replace (Z.of_nat p >=? 0)%Z with true by (symmetry; apply Z.geb_le; lia).
    rewrite Nat2Z.id. rewrite (getitem_nth V p []), (getitem_nth V i []) by assumption.
    cbn [bind]. rewrite Hrest. cbn [bind map]. unfold row.
    rewrite Hp, Nat2Z.id. reflexivity.
Qed.

(** X18: on the tree that [solve] returns, the list comprehension of
    [plot_tree] raises nothing; it yields one segment for each state other
    than the root, from the state of the parent to the state, and each of
    these segments is a motion that [is_free_motion] accepts. *)
Theorem plot_tree_segments_of_solve
        {D : RRT.Dynamics} {RS : RandomSource} {HD : NearestWritten D}
        (self : RRT.Problem) (fuel : nat) (eps goal_bias : R) (max_iters : Z)
        (w : World RS) :
  (1 <= max_iters)%Z ->
  (Z.to_nat max_iters <= fuel)%nat ->
  exists out w' segs,
    RRT.solve self fuel eps goal_bias max_iters w = (Ok out, w') /\
    plot_tree_segments (RRT.V out) (RRT.P out) = Ok segs /\
    (Z.of_nat (length segs) + 1 = tree_size (RRT.P out))%Z /\
    forall a b, In (a, b) segs ->
      RRT.is_free_motion (RRT.obstacles self) a b = true /\
      exists i p, (0 < i < length (RRT.P out))%nat /\ parent (RRT.P out) i = Z.of_nat p /\
                  a = row (RRT.V out) p /\ b = row (RRT.V out) i.
Proof.
  intros Hm Hfuel. set (m := Z.to_nat max_iters) in *.
  destruct (solve_running self fuel eps goal_bias m Hfuel max_iters w Hm eq_refl)
    as [out [w' [l [Hs [_ [Hok _]]]]]].
  pose proof (solve_edges self fuel eps goal_bias m Hfuel
                (fun a b => RRT.is_free_motion (RRT.obstacles self) a b = true) max_iters
                (fun _ _ H => H) Hm eq_refl w out w' Hs) as Hedges.
  pose proof (backward_cases self fuel m Hfuel out Hok) as Hcases.
  destruct Hok as [HlV HlP _ _ [Hroot _] _].
  set (keep := fun i => (parent (RRT.P out) i >=? 0)%Z).
  assert (Hloop : plot_tree_segments (RRT.V out) (RRT.P out) =
            Ok (map (fun i => (row (RRT.V out) (Z.to_nat (parent (RRT.P out) i)),
                               row (RRT.V out) i))
                    (filter keep (seq 0 (length (RRT.V out)))))).
  { apply plot_tree_loop_ok. intros i Hi. apply in_seq in Hi.
    split; [lia|]. split; [lia|].
    destruct (Hcases i) as [H | [p [Hp Hlt]]]; [now left|]. right. exists p. split; [exact Hp|lia]. }
  eexists out, w', _. split; [exact Hs|]. split; [exact Hloop|]. split.
  - rewrite length_map. unfold tree_size.
    cut (length (filter keep (seq 0 (length (RRT.V out))))
         = length (filter (fun p => negb (p =? -1)%Z) (tl (RRT.P out)))); [lia|].
    rewrite HlV, <- HlP.
    assert (Hidx : filter keep (seq 0 (length (RRT.P out)))
                   = filter (fun i => (nth (i - 0) (RRT.P out) (-1) >=? 0)%Z)
                            (seq 0 (length (RRT.P out)))).
    { apply filter_ext. intros i. unfold keep, parent. now rewrite Nat.sub_0_r. }
    pose proof (filter_index_length (fun q => (q >=? 0)%Z) (-1)%Z (RRT.P out) 0) as Hfl.
    cbv beta in Hfl. rewrite Hidx, Hfl.
    destruct (RRT.P out) as [|p0 tlP] eqn:EP; [reflexivity|].
    unfold parent in Hroot. cbn [nth] in Hroot. subst p0. cbn [filter tl Z.geb Z.compare].
    f_equal. apply filter_ext_in. intros q Hq.
    destruct (In_nth tlP q (-1)%Z Hq) as [j [Hj Hnth]].
    specialize (Hcases (S j)). unfold parent in Hcases.
    cbn [nth] in Hcases. rewrite Hnth in Hcases.
    destruct Hcases as [-> | [p [-> _]]]; [reflexivity|].
    replace (Z.of_nat p >=? 0)%Z with true by (symmetry; apply Z.geb_le; lia).
    symmetry. apply negb_true_iff, Z.eqb_neq. lia.
  - intros a b Hin. apply in_map_iff in Hin. destruct Hin as [i [Heq Hi]].
    injection Heq as <- <-. apply filter_In in Hi. destruct Hi as [Hi Hk].
    apply in_seq in Hi. unfold keep in Hk. apply Z.geb_le in Hk.
    destruct (Hcases i) as [H | [p [Hp Hlt]]]; [lia|].
    rewrite Hp, Nat2Z.id.
    assert (Hi0 : (0 < i < length (RRT.P out))%nat) by lia.
    split; [now apply Hedges|]. now exists i, p.
Qed.

Lemma plot_tree_segments_of_solve_witness :
  (1 <= 2)%Z /\ (Z.to_nat 2 <= 2)%nat /\
  exists out w' segs,
    RRT.solve (D := geometric_dynamics no_intersection) near_goal_problem 2 2 1 2 fresh_world
      = (Ok out, w') /\
    plot_tree_segments (RRT.V out) (RRT.P out) = Ok segs /\
    (Z.of_nat (length segs) + 1 = tree_size (RRT.P out))%Z.
Proof.
  split; [lia|]. split; [simpl; lia|].
  destruct (plot_tree_segments_of_solve (D := geometric_dynamics no_intersection)
              near_goal_problem 2 2 1 2 fresh_world)
    as [out [w' [segs [Hs [Hp [Hc _]]]]]]; [lia | simpl; lia |].
  now exists out, w', segs.
Defined.

(** * The configuration of [solve] *)



Section SampledInvariants.
Context {D : RRT.Dynamics} {RS : RandomSource} {HD : NearestWritten D}.
Variable self : RRT.Problem.
Variable fuel : nat.
Variable eps goal_bias : R.
Variable m : nat.
Hypothesis fuel_enough : (m <= fuel)%nat.

End SampledInvariants.







(** * The planner on a store of arrays *)

Lemma nth_error_list_set_eq {A} (l : list A) i a :
  (i < length l)%nat -> nth_error (list_set l i a) i = Some a.
Proof.
  revert i. induction l as [|h t IH]; intros [|j] H; simpl in *; try lia; try reflexivity.
  apply IH. lia.
Qed.

Lemma nth_error_list_set_neq {A} (l : list A) i j a :
  i <> j -> nth_error (list_set l i a) j = nth_error l j.
Proof.
  revert i j. induction l as [|h t IH]; intros [|i] [|j] H; simpl; try reflexivity; try congruence.
  apply IH. congruence.
Qed.

Lemma nth_error_alloc_old (h : Store.Heap) o id o' :
  nth_error h id = Some o -> nth_error (h ++ [o']) id = Some o.
Proof.
  intros H. rewrite nth_error_app1; [exact H|]. apply nth_error_Some. congruence.
Qed.

Lemma nth_error_alloc_new (h : Store.Heap) o : nth_error (h ++ [o]) (length h) = Some o.
Proof. rewrite nth_error_app2 by lia. now rewrite Nat.sub_diag. Qed.

Lemma getitem_map {A B} (f : A -> B) (l : list A) i :
  getitem (map f l) i = result_map f (getitem l i).
Proof.
  unfold getitem. rewrite nth_error_map. now destruct (nth_error l i).
Qed.

(** Reading through the same objects gives the same values. *)
Lemma matrix_same (h h' : Store.Heap) id o :
  nth_error h id = Some o -> nth_error h' id = Some o -> Store.matrix h' id = Store.matrix h id.
Proof. intros H H'. unfold Store.matrix. now rewrite H, H'. Qed.

Lemma ints_same (h h' : Store.Heap) id o :
  nth_error h id = Some o -> nth_error h' id = Some o -> Store.ints h' id = Store.ints h id.
Proof. intros H H'. unfold Store.ints. now rewrite H, H'. Qed.

Lemma contents_whole (h : Store.Heap) id v :
  nth_error h id = Some (Store.Vector v) -> Store.contents h (Store.Whole id) = v.
Proof. intros H. cbn. now rewrite H. Qed.

Lemma matrix_at (h : Store.Heap) id rows :
  nth_error h id = Some (Store.Matrix rows) -> Store.matrix h id = rows.
Proof. intros H. unfold Store.matrix. now rewrite H. Qed.

Lemma ints_at (h : Store.Heap) id l :
  nth_error h id = Some (Store.IntArray l) -> Store.ints h id = l.
Proof. intros H. unfold Store.ints. now rewrite H. Qed.

(** The walk on the store collects views of the rows that the walk on the
    values collects. *)
Lemma store_walk_parents_refines (h : Store.Heap) (V P : nat) :
  forall fuel stateidx acc,
    RRT.walk_parents fuel (Store.matrix h V) (Store.ints h P) stateidx
                     (map (Store.contents h) acc)
    = result_map (map (Store.contents h))
                 (Store.walk_parents fuel h V P stateidx acc).
Proof.
  induction fuel as [|fuel IH]; intros stateidx acc;
    cbn [RRT.walk_parents Store.walk_parents];
    destruct (stateidx >? -1)%Z; try reflexivity.
  destruct (Z.to_nat stateidx <? length (Store.matrix h V))%nat eqn:Hlt.
  - apply Nat.ltb_lt in Hlt.
    rewrite (getitem_nth (Store.matrix h V) _ []) by assumption. cbn [bind].
    destruct (getitem (Store.ints h P) (Z.to_nat stateidx)) as [parent | e |]; cbn [bind];
      try reflexivity.
    rewrite <- IH. rewrite map_app. reflexivity.
  - apply Nat.ltb_ge in Hlt. unfold getitem at 1.
    replace (nth_error (Store.matrix h V) (Z.to_nat stateidx)) with (@None State)
      by (symmetry; now apply nth_error_None).
    reflexivity.
Qed.

Lemma store_build_path_refines (f : Store.Ref -> State) (entire_path : list Store.Ref) :
  forall idxs soln,
    RRT.build_path (map f entire_path) idxs (map f soln)
    = result_map (map f) (Store.build_path entire_path idxs soln).
Proof.
  induction idxs as [|idx rest IH]; intros soln; cbn [RRT.build_path Store.build_path];
    [reflexivity|].
  rewrite getitem_map. destruct (getitem entire_path (idx - 1)) as [r | e |]; cbn [bind result_map];
    try reflexivity.
  rewrite <- IH. now rewrite map_app.
Qed.

Lemma store_soln_path_refines (h : Store.Heap) (V P : nat) fuel lastidx :
  RRT.soln_path fuel (Store.matrix h V) (Store.ints h P) lastidx
  = result_map (map (Store.contents h)) (Store.soln_path fuel h V P lastidx).
Proof.
  unfold RRT.soln_path, Store.soln_path.
  change (@nil State) with (map (Store.contents h) []) at 1.
  rewrite store_walk_parents_refines.
  destruct (Store.walk_parents fuel h V P lastidx []) as [e | err |]; cbn [bind result_map];
    try reflexivity.
  rewrite length_map. change (@nil State) with (map (Store.contents h) []).
  apply store_build_path_refines.
Qed.

(** The path holds views of rows of [V] only. *)
Lemma store_walk_parents_views (h : Store.Heap) (V P : nat) :
  forall fuel stateidx acc path,
    (forall r, In r acc -> exists i, r = Store.RowView V i) ->
    Store.walk_parents fuel h V P stateidx acc = Ok path ->
    forall r, In r path -> exists i, r = Store.RowView V i.
Proof.
  induction fuel as [|fuel IH]; intros stateidx acc path Hacc;
    cbn [Store.walk_parents]; destruct (stateidx >? -1)%Z; try discriminate;
    try (intros H; injection H as <-; exact Hacc).
  destruct (Z.to_nat stateidx <? length (Store.matrix h V))%nat; [|discriminate].
  destruct (getitem (Store.ints h P) (Z.to_nat stateidx)) as [parent | e |]; cbn [bind];
    try discriminate.
  apply IH. intros r Hin. apply in_app_or in Hin. destruct Hin as [Hin | [<- | []]].
  - now apply Hacc.
  - now eexists.
Qed.

Lemma store_build_path_in (entire_path : list Store.Ref) :
  forall idxs soln path,
    Store.build_path entire_path idxs soln = Ok path ->
    forall r, In r path -> In r soln \/ In r entire_path.
Proof.
  induction idxs as [|idx rest IH]; intros soln path; cbn [Store.build_path].
  - intros H. injection H as <-. now left.
  - unfold getitem. destruct (nth_error entire_path (idx - 1)) as [r0|] eqn:E; cbn [bind];
      [|discriminate].
    intros H r Hin. destruct (IH _ _ H r Hin) as [Hs | He]; [|now right].
    apply in_app_or in Hs. destruct Hs as [Hs | [<- | []]]; [now left|].
    right. eapply nth_error_In. exact E.
Qed.

Lemma store_soln_path_views (h : Store.Heap) (V P : nat) fuel lastidx path :
  Store.soln_path fuel h V P lastidx = Ok path ->
  forall r, In r path -> exists i, r = Store.RowView V i.
Proof.
  unfold Store.soln_path.
  destruct (Store.walk_parents fuel h V P lastidx []) as [e | err |] eqn:Hw; cbn [bind];
    try discriminate.
  intros Hb r Hin. destruct (store_build_path_in _ _ _ _ Hb r Hin) as [[] | He].
  eapply store_walk_parents_views; [|exact Hw|exact He]. intros r0 [].
Qed.

Lemma store_steer_towards_spec eps (h : Store.Heap) (x : Store.Ref) xid xv xnew h1 :
  nth_error h xid = Some (Store.Vector xv) ->
  Store.steer_towards eps h x (Store.Whole xid) = (xnew, h1) ->
  exists nid,
    xnew = Store.Whole nid /\
    nth_error h1 nid
      = Some (Store.Vector (GeometricRRT.steer_towards (Store.contents h x) xv eps)) /\
    Store.extends h h1.
Proof.
  intros Hx. unfold Store.steer_towards, GeometricRRT.steer_towards.
  rewrite (contents_whole h xid xv Hx).
  destruct (Rltb (norm (vsub xv (Store.contents h x))) eps).
  - intros H. injection H as <- <-. exists xid. split; [reflexivity|]. split; [exact Hx|].
    intros id o Ho. exact Ho.
  - unfold Store.alloc. intros H. injection H as <- <-. exists (length h).
    split; [reflexivity|]. split; [apply nth_error_alloc_new|].
    intros id o Ho. now apply nth_error_alloc_old.
Qed.

Section StoreRefinement.
Context {RS : RandomSource}.
Variable lli : Segment -> Segment -> bool.
Variable self : Store.Instance.
Variable fuel : nat.
Variable eps goal_bias : R.

(** One run of the body on the store does what the body does on the values
    that the store holds; it writes to [V] and [P] only. *)
Lemma store_extend_refines k xid xv loc h r h' :
  Store.typed h loc ->
  nth_error h xid = Some (Store.Vector xv) ->
  (exists gv, nth_error h (Store.x_goal self) = Some (Store.Vector gv)) ->
  Store.extend lli self fuel eps k (Store.Whole xid) loc h = (r, h') ->
  RRT.extend (D := geometric_dynamics lli) (Store.problem_of h self) fuel eps k xv
             (Store.view h loc)
    = result_map (fun lb => (Store.view h' (fst lb), snd lb)) r /\
  Store.frame (Store.V loc) (Store.P loc) h h' /\
  (forall loc' b, r = Ok (loc', b) ->
     Store.V loc' = Store.V loc /\ Store.P loc' = Store.P loc /\
     (exists rows, nth_error h' (Store.V loc) = Some (Store.Matrix rows)) /\
     (exists l, nth_error h' (Store.P loc) = Some (Store.IntArray l)) /\
     (b = false -> loc' = loc) /\
     (forall rf, In rf (Store.solution_path loc') ->
                 exists i, rf = Store.RowView (Store.V loc) i)).
Proof.
  intros [[rows HV] [[l HP] Hpath]] Hx [gv Hg].
  unfold Store.extend, RRT.extend.
  cbn [RRT.find_nearest RRT.steer_towards RRT.is_free_motion geometric_dynamics
       Store.view RRT.V RRT.P RRT.n RRT.success RRT.solution_path
       Store.problem_of RRT.obstacles RRT.x_goal].
  rewrite (contents_whole h xid xv Hx), (matrix_at h _ rows HV), (ints_at h _ l HP).
  rewrite (contents_whole h _ gv Hg). rewrite Hpath. cbn [map].
  set (idx := GeometricRRT.find_nearest rows xv).
  destruct (idx <? length rows)%nat eqn:Hidx.
  2:{ apply Nat.ltb_ge in Hidx. unfold getitem.
      replace (nth_error rows idx) with (@None State) by (symmetry; now apply nth_error_None).
      intros H. injection H as <- <-. cbn.
      split; [reflexivity|]. split; [intros id o Ho _ _; exact Ho|]. intros ? ? H. discriminate. }
  apply Nat.ltb_lt in Hidx. rewrite (getitem_nth rows idx []) by assumption. cbn [bind].
  destruct (Store.steer_towards eps h (Store.RowView (Store.V loc) idx) (Store.Whole xid))
    as [xnew h1] eqn:Hsteer.
  destruct (store_steer_towards_spec eps h _ xid xv xnew h1 Hx Hsteer) as [nid [-> [Hn Hext]]].
  assert (Hnear : Store.contents h (Store.RowView (Store.V loc) idx) = nth idx rows []).
  { cbn [Store.contents]. now rewrite (matrix_at h _ rows HV). }
  rewrite Hnear in Hn.
  set (xnewv := GeometricRRT.steer_towards (nth idx rows []) xv eps) in *.
  pose proof (Hext _ _ HV) as HV1. pose proof (Hext _ _ HP) as HP1. pose proof (Hext _ _ Hg) as Hg1.
  assert (Hnear1 : Store.contents h1 (Store.RowView (Store.V loc) idx) = nth idx rows []).
  { cbn [Store.contents]. now rewrite (matrix_at h1 _ rows HV1). }
  rewrite Hnear1, (contents_whole h1 nid xnewv Hn).
  assert (Hview1 : Store.view h1 loc = Store.view h loc).
  { unfold Store.view. rewrite (matrix_at h1 _ rows HV1), (matrix_at h _ rows HV).
    rewrite (ints_at h1 _ l HP1), (ints_at h _ l HP). now rewrite Hpath. }
  destruct (GeometricRRT.is_free_motion lli (Store.obstacles self) (nth idx rows []) xnewv).
  2:{ intros H. injection H as <- <-. cbn [result_map fst snd]. rewrite Hview1.
      split; [reflexivity|]. split; [intros id o Ho _ _; now apply Hext|].
      intros loc' b H. injection H as <- <-.
      split; [reflexivity|]. split; [reflexivity|]. split; [now exists rows|].
      split; [now exists l|]. split; [reflexivity|]. rewrite Hpath. intros rf []. }
  assert (HVlt : (Store.V loc < length h1)%nat) by (apply nth_error_Some; congruence).
  assert (HPlt : (Store.P loc < length h1)%nat) by (apply nth_error_Some; congruence).
  assert (HVP : Store.V loc <> Store.P loc) by (intros E; rewrite E in HV1; congruence).
  assert (HnV : nid <> Store.V loc) by (intros E; rewrite E in Hn; congruence).
  assert (HnP : nid <> Store.P loc) by (intros E; rewrite E in Hn; congruence).
  assert (HgV : Store.x_goal self <> Store.V loc) by (intros E; rewrite E in Hg1; congruence).
  assert (HgP : Store.x_goal self <> Store.P loc) by (intros E; rewrite E in Hg1; congruence).
  unfold Store.set_row, setitem. rewrite (matrix_at h1 _ rows HV1).
  destruct (k <? length rows)%nat eqn:Hk.
  2:{ intros H. injection H as <- <-. cbn.
      split; [reflexivity|]. split; [intros id o Ho _ _; now apply Hext|].
      intros ? ? H. discriminate. }
  cbn [bind].
  set (rows' := list_set rows k xnewv).
  set (h2 := list_set h1 (Store.V loc) (Store.Matrix rows')).
  assert (HV2 : nth_error h2 (Store.V loc) = Some (Store.Matrix rows'))
    by (apply nth_error_list_set_eq; exact HVlt).
  assert (Hother2 : forall id, id <> Store.V loc -> nth_error h2 id = nth_error h1 id).
  { intros id Hid. apply nth_error_list_set_neq. congruence. }
  assert (HP2 : nth_error h2 (Store.P loc) = Some (Store.IntArray l))
    by (rewrite Hother2 by congruence; exact HP1).
  unfold Store.set_int. rewrite (ints_at h2 _ l HP2).
  destruct (k <? length l)%nat eqn:Hkl.
  2:{ intros H. injection H as <- <-. cbn.
      split; [reflexivity|]. split.
      - intros id o Ho HidV _. rewrite Hother2 by exact HidV. now apply Hext.
      - intros ? ? H. discriminate. }
  cbn [bind].
  set (l' := list_set l k (Z.of_nat idx)).
  set (h3 := list_set h2 (Store.P loc) (Store.IntArray l')).
  assert (HP3 : nth_error h3 (Store.P loc) = Some (Store.IntArray l')).
  { apply nth_error_list_set_eq. unfold h2. rewrite list_set_length. exact HPlt. }
  assert (Hother3 : forall id, id <> Store.P loc -> nth_error h3 id = nth_error h2 id).
  { intros id Hid. apply nth_error_list_set_neq. congruence. }
  assert (HV3 : nth_error h3 (Store.V loc) = Some (Store.Matrix rows'))
    by (rewrite Hother3 by exact HVP; exact HV2).
  assert (Hn3 : nth_error h3 nid = Some (Store.Vector xnewv))
    by (rewrite (Hother3 _ HnP), (Hother2 _ HnV); exact Hn).
  assert (Hg3 : nth_error h3 (Store.x_goal self) = Some (Store.Vector gv))
    by (rewrite (Hother3 _ HgP), (Hother2 _ HgV); exact Hg1).
  assert (Hframe : Store.frame (Store.V loc) (Store.P loc) h h3).
  { intros id o Ho HidV HidP. rewrite (Hother3 _ HidP), (Hother2 _ HidV). now apply Hext. }
  rewrite (contents_whole h3 nid xnewv Hn3), (contents_whole h3 _ gv Hg3).
  destruct (array_equal xnewv gv).
  - pose proof (store_soln_path_refines h3 (Store.V loc) (Store.P loc) fuel (Z.of_nat k)) as Hsp.
    rewrite (matrix_at h3 _ rows' HV3), (ints_at h3 _ l' HP3) in Hsp. rewrite Hsp.
    destruct (Store.soln_path fuel h3 (Store.V loc) (Store.P loc) (Z.of_nat k))
      as [path | e |] eqn:Hpath3; intros H; injection H as <- <-; cbn [result_map bind fst snd].
    + split.
      { unfold Store.view. cbn [Store.V Store.P Store.n Store.success Store.solution_path].
        now rewrite (matrix_at h3 _ rows' HV3), (ints_at h3 _ l' HP3). }
      split; [exact Hframe|]. intros loc' b H. injection H as <- <-.
      cbn [Store.V Store.P Store.solution_path].
      split; [reflexivity|]. split; [reflexivity|]. split; [now exists rows'|].
      split; [now exists l'|]. split; [discriminate|].
      exact (store_soln_path_views h3 (Store.V loc) (Store.P loc) fuel (Z.of_nat k) path Hpath3).
    + split; [reflexivity|]. split; [exact Hframe|]. intros ? ? H. discriminate.
    + split; [reflexivity|]. split; [exact Hframe|]. intros ? ? H. discriminate.
  - intros H. injection H as <- <-. cbn [result_map fst snd].
    split.
    { unfold Store.view. rewrite (matrix_at h3 _ rows' HV3), (ints_at h3 _ l' HP3).
      now rewrite Hpath. }
    split; [exact Hframe|]. intros loc' b H. injection H as <- <-.
    split; [reflexivity|]. split; [reflexivity|]. split; [now exists rows'|].
    split; [now exists l'|]. split; [reflexivity|]. rewrite Hpath. intros rf [].
Qed.

Lemma store_valid_extends (h h' : Store.Heap) :
  Store.valid_instance h self -> Store.extends h h' ->
  Store.valid_instance h' self /\ Store.problem_of h' self = Store.problem_of h self.
Proof.
  intros Hv Hext. split.
  - intros id Hid. destruct (Hv id Hid) as [v Hvec]. exists v. now apply Hext.
  - unfold Store.problem_of.
    destruct (Hv (Store.statespace_lo self)) as [v1 H1]; [cbn; tauto|].
    destruct (Hv (Store.statespace_hi self)) as [v2 H2]; [cbn; tauto|].
    destruct (Hv (Store.x_init self)) as [v3 H3]; [cbn; tauto|].
    destruct (Hv (Store.x_goal self)) as [v4 H4]; [cbn; tauto|].
    rewrite (contents_whole h _ _ H1), (contents_whole h _ _ H2),
            (contents_whole h _ _ H3), (contents_whole h _ _ H4).
    rewrite (contents_whole h' _ _ (Hext _ _ H1)), (contents_whole h' _ _ (Hext _ _ H2)),
            (contents_whole h' _ _ (Hext _ _ H3)), (contents_whole h' _ _ (Hext _ _ H4)).
    reflexivity.
Qed.

(** A frame around [V] and [P] keeps the arrays of [self]: they are vectors,
    and [V] and [P] are not. *)
Lemma store_valid_frame (h h' : Store.Heap) (V P : nat) :
  Store.valid_instance h self ->
  (exists rows, nth_error h V = Some (Store.Matrix rows)) ->
  (exists l, nth_error h P = Some (Store.IntArray l)) ->
  Store.frame V P h h' ->
  Store.valid_instance h' self /\ Store.problem_of h' self = Store.problem_of h self.
Proof.
  intros Hv [rows HV] [l HP] Hf.
  assert (Hkeep : forall id v,
            nth_error h id = Some (Store.Vector v) -> nth_error h' id = Some (Store.Vector v)).
  { intros id v Hvec. apply Hf; [exact Hvec| |]; intros E; rewrite E in Hvec; congruence. }
  split.
  - intros id Hid. destruct (Hv id Hid) as [v Hvec]. exists v. now apply Hkeep.
  - unfold Store.problem_of.
    destruct (Hv (Store.statespace_lo self)) as [v1 H1]; [cbn; tauto|].
    destruct (Hv (Store.statespace_hi self)) as [v2 H2]; [cbn; tauto|].
    destruct (Hv (Store.x_init self)) as [v3 H3]; [cbn; tauto|].
    destruct (Hv (Store.x_goal self)) as [v4 H4]; [cbn; tauto|].
    rewrite (contents_whole h _ _ H1), (contents_whole h _ _ H2),
            (contents_whole h _ _ H3), (contents_whole h _ _ H4).
    rewrite (contents_whole h' _ _ (Hkeep _ _ H1)),
            (contents_whole h' _ _ (Hkeep _ _ H2)),
            (contents_whole h' _ _ (Hkeep _ _ H3)),
            (contents_whole h' _ _ (Hkeep _ _ H4)).
    reflexivity.
Qed.

Lemma store_sample_spec (h : Store.Heap) (w : World RS) xrand h1 w' :
  Store.valid_instance h self ->
  Store.sample self goal_bias h w = (xrand, h1, w') ->
  exists xid xv,
    xrand = Store.Whole xid /\
    nth_error h1 xid = Some (Store.Vector xv) /\
    RRT.sample (Store.problem_of h self) goal_bias w = (xv, w') /\
    Store.extends h h1.
Proof.
  intros Hv. unfold Store.sample, RRT.sample.
  cbn [Store.problem_of RRT.statespace_lo RRT.statespace_hi RRT.x_init RRT.x_goal].
  destruct (np_random_uniform 0 1 w) as [z w1].
  destruct (np_random_uniform_box _ _ _ w1) as [x w2].
  unfold Store.alloc. intros H. injection H as <- <- <-.
  assert (Hext : Store.extends h (h ++ [Store.Vector x])).
  { intros id o Ho. now apply nth_error_alloc_old. }
  destruct (Rltb z goal_bias).
  - destruct (Hv (Store.x_goal self)) as [gv Hg]; [cbn; tauto|].
    exists (Store.x_goal self), gv. split; [reflexivity|]. split; [now apply Hext|].
    split; [|exact Hext]. now rewrite (contents_whole h _ _ Hg).
  - exists (length h), x. split; [reflexivity|]. split; [apply nth_error_alloc_new|].
    split; [reflexivity|exact Hext].
Qed.

Lemma store_view_extends (h h' : Store.Heap) loc :
  Store.typed h loc -> Store.extends h h' ->
  Store.typed h' loc /\ Store.view h' loc = Store.view h loc.
Proof.
  intros [[rows HV] [[l HP] Hpath]] Hext. split.
  - split; [exists rows; now apply Hext|]. split; [exists l; now apply Hext|exact Hpath].
  - unfold Store.view.
    rewrite (matrix_at h _ _ HV), (ints_at h _ _ HP).
    rewrite (matrix_at h' _ _ (Hext _ _ HV)), (ints_at h' _ _ (Hext _ _ HP)).
    now rewrite Hpath.
Qed.

(** The loop on the store does what the loop does on the values that the
    store holds, and writes to [V] and [P] only. *)
Lemma store_for_loop_refines ks :
  forall loc h (w : World RS) r h' w',
    Store.valid_instance h self -> Store.typed h loc ->
    Store.for_loop lli self fuel eps goal_bias ks loc h w = (r, h', w') ->
    RRT.for_loop (D := geometric_dynamics lli) (Store.problem_of h self) fuel eps goal_bias
                 ks (Store.view h loc) w
      = (Store.outcome h' r, w') /\
    Store.frame (Store.V loc) (Store.P loc) h h' /\
    (forall loc', r = Ok loc' ->
       (exists rows, nth_error h' (Store.V loc') = Some (Store.Matrix rows)) /\
       (exists l, nth_error h' (Store.P loc') = Some (Store.IntArray l)) /\
       (forall rf, In rf (Store.solution_path loc') ->
                   exists i, rf = Store.RowView (Store.V loc') i)).
Proof.
  induction ks as [|k ks IH]; intros loc h w r h' w' Hv Hty;
    cbn [Store.for_loop RRT.for_loop].
  - intros H. injection H as <- <- <-. split; [reflexivity|].
    split; [intros id o Ho _ _; exact Ho|]. intros loc' H. injection H as <-.
    destruct Hty as [HV [HP Hpath]]. split; [exact HV|]. split; [exact HP|].
    rewrite Hpath. intros rf [].
  - unfold Store.iteration, RRT.iteration.
    destruct (Store.sample self goal_bias h w) as [[xrand h1] w1] eqn:Hs.
    destruct (store_sample_spec h w xrand h1 w1 Hv Hs) as [xid [xv [-> [Hx [Hps Hext]]]]].
    rewrite Hps.
    destruct (store_valid_extends h h1 Hv Hext) as [Hv1 Hprob1].
    destruct (store_view_extends h h1 loc Hty Hext) as [Hty1 Hview1].
    destruct (Store.extend lli self fuel eps k (Store.Whole xid) loc h1) as [r0 h2] eqn:He.
    destruct (store_extend_refines k xid xv loc h1 r0 h2 Hty1 Hx
                (Hv1 (Store.x_goal self) ltac:(cbn; tauto)) He) as [Hpure [Hframe Hok]].
    rewrite Hprob1, Hview1 in Hpure. rewrite Hpure.
    assert (Hframe01 : Store.frame (Store.V loc) (Store.P loc) h h2).
    { intros id o Ho HidV HidP. apply Hframe; [now apply Hext|exact HidV|exact HidP]. }
    destruct r0 as [[loc' [|]] | e |]; cbn [result_map fst snd].
    + intros H. injection H as <- <- <-. cbn [Store.outcome].
      split; [reflexivity|]. split; [exact Hframe01|].
      intros loc0 H. injection H as <-.
      destruct (Hok loc' true eq_refl) as [EV [EP [HV2 [HP2 [_ Hviews]]]]].
      rewrite EV, EP. now repeat split.
    + destruct (Hok loc' false eq_refl) as [_ [_ [HV2 [HP2 [Eloc _]]]]].
      rewrite (Eloc eq_refl) in *.
      assert (Hty2 : Store.typed h2 loc).
      { split; [exact HV2|]. split; [exact HP2|]. apply Hty. }
      destruct Hty1 as [HV1 [HP1 _]].
      destruct (store_valid_frame h1 h2 _ _ Hv1 HV1 HP1 Hframe) as [Hv2 Hprob2].
      intros Hrest. destruct (IH loc h2 w1 r h' w' Hv2 Hty2 Hrest) as [Hp [Hf Hres]].
      rewrite Hprob2, Hprob1 in Hp. split; [exact Hp|]. split; [|exact Hres].
      intros id o Ho HidV HidP. apply Hf; [|exact HidV|exact HidP].
      now apply Hframe01.
    + intros H. injection H as <- <- <-. cbn [Store.outcome].
      split; [reflexivity|]. split; [exact Hframe01|]. intros ? H. discriminate.
    + intros H. injection H as <- <- <-. cbn [Store.outcome].
      split; [reflexivity|]. split; [exact Hframe01|]. intros ? H. discriminate.
Qed.

(** [solve] on the store returns references to what [solve] returns on the
    values that the store holds, and leaves every object of the store it
    started from as it was. *)
Lemma store_solve_refines (max_iters : Z) (h : Store.Heap) (w : World RS) r h' w' :
  Store.valid_instance h self ->
  Store.solve lli self fuel eps goal_bias max_iters h w = (r, h', w') ->
  RRT.solve (D := geometric_dynamics lli) (Store.problem_of h self) fuel eps goal_bias
            max_iters w
    = (Store.outcome h' r, w') /\
  Store.extends h h' /\
  (forall loc, r = Ok loc ->
     (exists rows, nth_error h' (Store.V loc) = Some (Store.Matrix rows)) /\
     (exists l, nth_error h' (Store.P loc) = Some (Store.IntArray l)) /\
     (forall rf, In rf (Store.solution_path loc) ->
                 exists i, rf = Store.RowView (Store.V loc) i)).
Proof.
  intros Hv. unfold Store.solve, RRT.solve, Store.init, RRT.init.
  cbn [Store.problem_of RRT.x_init].
  destruct (np_zeros max_iters (length (Store.contents h (Store.Whole (Store.x_init self)))))
    as [rows | e |] eqn:Hz; cbn [bind].
  2:{ intros H. injection H as <- <- <-. cbn. split; [reflexivity|].
      split; [intros id o Ho; exact Ho|]. intros ? H. discriminate. }
  2:{ intros H. injection H as <- <- <-. cbn. split; [reflexivity|].
      split; [intros id o Ho; exact Ho|]. intros ? H. discriminate. }
  unfold Store.alloc at 1.
  set (h1 := h ++ [Store.Matrix rows]).
  assert (Hext1 : Store.extends h h1) by (intros id o Ho; now apply nth_error_alloc_old).
  assert (HV1 : nth_error h1 (length h) = Some (Store.Matrix rows)) by apply nth_error_alloc_new.
  destruct (Hv (Store.x_init self)) as [iv Hi]; [cbn; tauto|].
  rewrite (contents_whole h1 _ iv (Hext1 _ _ Hi)).
  rewrite (contents_whole h _ iv Hi) in *.
  unfold Store.set_row, setitem. rewrite (matrix_at h1 _ rows HV1).
  destruct (0 <? length rows)%nat eqn:H0; cbn [bind].
  2:{ intros H. injection H as <- <- <-. cbn. split; [reflexivity|].
      split; [exact Hext1|]. intros ? H. discriminate. }
  set (rows1 := list_set rows 0 iv).
  set (h2 := list_set h1 (length h) (Store.Matrix rows1)).
  assert (Hlen1 : length h1 = S (length h)).
  { unfold h1. rewrite length_app. cbn [length]. lia. }
  assert (HV2 : nth_error h2 (length h) = Some (Store.Matrix rows1)).
  { apply nth_error_list_set_eq. lia. }
  assert (Hext2 : Store.extends h h2).
  { intros id o Ho. unfold h2. rewrite nth_error_list_set_neq; [now apply Hext1|].
    assert (id < length h)%nat by (apply nth_error_Some; congruence). lia. }
  destruct (np_minus_ones max_iters) as [l | e |] eqn:Hm; cbn [bind].
  2:{ intros H. injection H as <- <- <-. cbn. split; [reflexivity|].
      split; [exact Hext2|]. intros ? H. discriminate. }
  2:{ intros H. injection H as <- <- <-. cbn. split; [reflexivity|].
      split; [exact Hext2|]. intros ? H. discriminate. }
  unfold Store.alloc.
  set (h3 := h2 ++ [Store.IntArray l]).
  assert (Hlen2 : length h2 = S (length h)) by (unfold h2; rewrite list_set_length; exact Hlen1).
  set (loc := {| Store.V := length h; Store.P := length h2; Store.n := 1;
                 Store.success := false; Store.solution_path := [] |}).
  assert (Hext3 : Store.extends h h3).
  { intros id o Ho. unfold h3. apply nth_error_alloc_old. now apply Hext2. }
  assert (HV3 : nth_error h3 (Store.V loc) = Some (Store.Matrix rows1)).
  { unfold h3. now apply nth_error_alloc_old. }
  assert (HP3 : nth_error h3 (Store.P loc) = Some (Store.IntArray l)).
  { unfold h3. apply nth_error_alloc_new. }
  assert (Hty : Store.typed h3 loc).
  { split; [now exists rows1|]. split; [now exists l|reflexivity]. }
  destruct (store_valid_extends h h3 Hv Hext3) as [Hv3 Hprob3].
  intros Hloop.
  destruct (store_for_loop_refines (range1 max_iters) loc h3 w r h' w' Hv3 Hty Hloop)
    as [Hp [Hf Hres]].
  rewrite Hprob3 in Hp.
  assert (Hview : Store.view h3 loc
                  = {| RRT.V := rows1; RRT.P := l; RRT.n := 1;
                       RRT.success := false; RRT.solution_path := [] |}).
  { unfold Store.view. now rewrite (matrix_at h3 _ _ HV3), (ints_at h3 _ _ HP3). }
  rewrite Hview in Hp. split; [exact Hp|]. split; [|exact Hres].
  intros id o Ho.
  assert (Hid : (id < length h)%nat) by (apply nth_error_Some; congruence).
  apply Hf; [now apply Hext3| |]; cbn [Store.V Store.P loc]; lia.
Qed.
End StoreRefinement.

(** The outcome of [solve] and the generator it leaves depend on the
    generator it starts with, not on the log. *)
Lemma solve_same_generator {D : RRT.Dynamics} {RS : RandomSource}
      (self : RRT.Problem) fuel eps goal_bias max_iters (w1 w2 : World RS) :
  gen w1 = gen w2 ->
  fst (RRT.solve self fuel eps goal_bias max_iters w1) =
    fst (RRT.solve self fuel eps goal_bias max_iters w2) /\
  gen (snd (RRT.solve self fuel eps goal_bias max_iters w1)) =
    gen (snd (RRT.solve self fuel eps goal_bias max_iters w2)).
Proof.
  intros Hg. unfold RRT.solve.
  destruct (RRT.init self max_iters) as [st | e |]; cbn [fst snd]; try (now split).
  now apply for_loop_same_generator.
Qed.

(** What a run returned reads the same in every later store in which the
    objects of the run are as it left them. *)
Lemma store_outcome_extends (h h' : Store.Heap) (r : result Store.Locals) :
  Store.extends h h' ->
  (forall loc, r = Ok loc ->
     (exists rows, nth_error h (Store.V loc) = Some (Store.Matrix rows)) /\
     (exists l, nth_error h (Store.P loc) = Some (Store.IntArray l)) /\
     (forall rf, In rf (Store.solution_path loc) ->
                 exists i, rf = Store.RowView (Store.V loc) i)) ->
  Store.outcome h' r = Store.outcome h r.
Proof.
  intros Hext Hty. destruct r as [loc | e |]; try reflexivity.
  destruct (Hty loc eq_refl) as [[rows HV] [[l HP] Hpath]].
  cbn [Store.outcome]. f_equal. unfold Store.view.
  rewrite (matrix_at h _ _ HV), (ints_at h _ _ HP).
  rewrite (matrix_at h' _ _ (Hext _ _ HV)), (ints_at h' _ _ (Hext _ _ HP)).
  f_equal. apply map_ext_in. intros rf Hin. destruct (Hpath rf Hin) as [i ->].
  cbn [Store.contents].
  now rewrite (matrix_at h _ _ HV), (matrix_at h' _ _ (Hext _ _ HV)).
Qed.

(** C9. Two runs of [solve] on one instance with one configuration, the
    second in the store that the first one left, each after
    [np.random.seed(s)]: read in the last store, the second run returns the
    tree ([V], [P], [n]), the flag and the path that the first run returned;
    the second run has overwritten nothing of what the first one returned;
    both leave the generator in the same state; and the arrays of the fields
    of the instance hold what they held before the first run.  With a
    budget of at least one slot and enough fuel for the walk along the
    parents, both runs return. *)
Theorem solve_rerun_same_seed
        {RS : RandomSource} (line_line_intersection : Segment -> Segment -> bool)
        (self : Store.Instance) (fuel : nat) (eps goal_bias : R) (max_iters : Z)
        (s : Z) (h0 : Store.Heap) (w0 : World RS) :
  Store.valid_instance h0 self ->
  let '(r1, h1, w1) :=
    Store.solve line_line_intersection self fuel eps goal_bias max_iters h0
                (np_random_seed s w0) in
  let '(r2, h2, w2) :=
    Store.solve line_line_intersection self fuel eps goal_bias max_iters h1
                (np_random_seed s w1) in
  Store.outcome h2 r2 = Store.outcome h2 r1 /\
  Store.outcome h2 r1 = Store.outcome h1 r1 /\
  gen w2 = gen w1 /\
  Store.problem_of h2 self = Store.problem_of h0 self /\
  ((1 <= max_iters)%Z -> (Z.to_nat max_iters <= fuel)%nat ->
   exists loc1 loc2, r1 = Ok loc1 /\ r2 = Ok loc2).
Proof.
  intros Hv.
  destruct (Store.solve line_line_intersection self fuel eps goal_bias max_iters h0
                        (np_random_seed s w0)) as [[r1 h1] w1] eqn:E1.
  destruct (store_solve_refines line_line_intersection self fuel eps goal_bias max_iters
              h0 _ r1 h1 w1 Hv E1) as [Hp1 [Hext1 Hty1]].
  destruct (store_valid_extends self h0 h1 Hv Hext1) as [Hv1 Hprob1].
  destruct (Store.solve line_line_intersection self fuel eps goal_bias max_iters h1
                        (np_random_seed s w1)) as [[r2 h2] w2] eqn:E2.
  destruct (store_solve_refines line_line_intersection self fuel eps goal_bias max_iters
              h1 _ r2 h2 w2 Hv1 E2) as [Hp2 [Hext2 Hty2]].
  destruct (store_valid_extends self h1 h2 Hv1 Hext2) as [Hv2 Hprob2].
  rewrite Hprob1 in Hp2.
  destruct (solve_same_generator (D := geometric_dynamics line_line_intersection)
              (Store.problem_of h0 self) fuel eps goal_bias max_iters
              (np_random_seed s w0) (np_random_seed s w1) eq_refl) as [Hfst Hgen].
  rewrite Hp1, Hp2 in Hfst, Hgen. cbn [fst snd] in Hfst, Hgen.
  pose proof (store_outcome_extends h1 h2 r1 Hext2 Hty1) as Hkeep.
  split; [now rewrite Hkeep, Hfst|]. split; [exact Hkeep|]. split; [now symmetry|].
  split; [now rewrite Hprob2, Hprob1|].
  intros Hm Hfuel.
  destruct (solve_running (D := geometric_dynamics line_line_intersection)
              (Store.problem_of h0 self) fuel eps goal_bias (Z.to_nat max_iters) Hfuel
              max_iters (np_random_seed s w0) Hm eq_refl) as [out [w' [l [Hs _]]]].
  rewrite Hp1 in Hs. injection Hs as Hs _.
  assert (Hs2 : Store.outcome h2 r2 = Ok out) by now rewrite <- Hfst.
  destruct r1 as [loc1 | |]; try discriminate.
  destruct r2 as [loc2 | |]; try discriminate.
  now exists loc1, loc2.
Qed.

Lemma solve_rerun_same_seed_witness :
  Store.valid_instance near_goal_store near_goal_instance /\
  let '(r1, h1, w1) :=
    Store.solve no_intersection near_goal_instance 3 2 0 3 near_goal_store
                (np_random_seed 7 fresh_world) in
  let '(r2, h2, w2) :=
    Store.solve no_intersection near_goal_instance 3 2 0 3 h1
                (np_random_seed 7 w1) in
  Store.outcome h2 r2 = Store.outcome h2 r1 /\
  Store.outcome h2 r1 = Store.outcome h1 r1 /\
  gen w2 = gen w1 /\
  Store.problem_of h2 near_goal_instance
    = Store.problem_of near_goal_store near_goal_instance /\
  ((1 <= 3)%Z -> (Z.to_nat 3 <= 3)%nat ->
   exists loc1 loc2, r1 = Ok loc1 /\ r2 = Ok loc2).
Proof.
  assert (Hv : Store.valid_instance near_goal_store near_goal_instance).
  { intros id [<- | [<- | [<- | [<- | []]]]]; eexists; reflexivity. }
  split; [exact Hv|].
  exact (solve_rerun_same_seed no_intersection near_goal_instance 3 2 0 3 7
           near_goal_store fresh_world Hv).
Defined.

(** ** Steering over binary64 floats *)

Section Float64Facts.
Import PrimFloat SpecFloat FloatOps FloatAxioms.
Local Open Scope float_scope.

Lemma SFcompare_antisym (a b : spec_float) (c : comparison) :
  SFcompare a b = Some c -> SFcompare b a = Some (CompOpp c).
Proof.
  destruct a as [sa | sa | | sa ma ea], b as [sb | sb | | sb mb eb]; cbn;
    try discriminate; intros H; injection H as <-;
    try (destruct sa; try destruct sb; reflexivity).
  f_equal. rewrite (Z.compare_antisym ea eb).
  destruct sa, sb; cbn; try reflexivity;
    destruct (ea ?= eb)%Z; cbn; try reflexivity.
  - f_equal. exact (eq_sym (Pos.compare_cont_antisym ma mb Eq)).
  - exact (eq_sym (Pos.compare_cont_antisym ma mb Eq)).
Qed.


Lemma broadcast_same_shape (op : float -> float -> float) (a b : Float64.Array) :
  length a = length b ->
  Float64.broadcast op a b = Ok (map (fun p => op (fst p) (snd p)) (combine a b)).
Proof.
  intros H. unfold Float64.broadcast. now rewrite H, Nat.eqb_refl.
Qed.

Lemma broadcast_shapes_differ (op : float -> float -> float) (a b : Float64.Array) :
  length a <> length b -> length a <> 1%nat -> length b <> 1%nat ->
  Float64.broadcast op a b = Raise ValueError.
Proof.
  intros H Ha Hb. unfold Float64.broadcast.
  replace (length a =? length b)%nat with false by (symmetry; now apply Nat.eqb_neq).
  destruct a as [|a0 [|a1 a']]; cbn in Ha; try congruence;
    destruct b as [|b0 [|b1 b']]; cbn in Hb; try congruence; reflexivity.
Qed.


(** Arrays whose shapes differ, neither of one component: the subtraction
    raises. *)
Lemma steer_shapes_differ (norm : Float64.Array -> float) (x y : Float64.Array)
      (eps : float) :
  length x <> length y -> length x <> 1%nat -> length y <> 1%nat ->
  Float64.steer_towards norm x y eps = Raise ValueError.
Proof.
  intros H Hx Hy. unfold Float64.steer_towards.
  rewrite broadcast_shapes_differ by congruence. reflexivity.
Qed.

(** The rounded step from [0; 0] towards [3; 4], for every norm that returns
    5 for [3; 4], as every order of the sum [9 + 16] does. *)
Lemma steer_rounds_for_every_norm (norm : Float64.Array -> float) :
  norm [3; 4] = 5 ->
  Float64.steer_towards norm [0; 0] [3; 4] 1
    = Ok [0x1.3333333333334p-1; 0x1.999999999999ap-1].
Proof.
  intros H. unfold Float64.steer_towards, Float64.broadcast.
  cbn [length Nat.eqb combine map fst snd bind].
  replace (3 - 0) with 3 by (vm_compute; reflexivity).
  replace (4 - 0) with 4 by (vm_compute; reflexivity).
  rewrite H. vm_compute. reflexivity.
Qed.




End Float64Facts.

(** ** The nearest row over binary64 floats *)

Section Float64Nearest.
Import PrimFloat SpecFloat FloatOps FloatAxioms.
Local Open Scope float_scope.

Ltac sf_cases :=
  cbn;
  repeat match goal with
         | |- context [PosDef.Pos.compare_cont Eq ?p ?q] =>
             change (PosDef.Pos.compare_cont Eq p q) with (Pos.compare p q)
         end;
  repeat match goal with
         | |- context [Z.compare ?a ?b] => destruct (Z.compare_spec a b); cbn [CompOpp]
         | |- context [Pos.compare ?a ?b] => destruct (Pos.compare_spec a b); cbn [CompOpp]
         end;
  try reflexivity; try discriminate; try (intros; subst; lia).

Lemma SFcompare_lt_trans (a b c : spec_float) :
  SFcompare a b = Some Lt -> SFcompare b c = Some Lt -> SFcompare a c = Some Lt.
Proof.
  destruct a as [sa | sa | | sa ma ea], b as [sb | sb | | sb mb eb],
           c as [sc | sc | | sc mc ec];
    try destruct sa; try destruct sb; try destruct sc; sf_cases.
Qed.

Lemma SFcompare_lt_eq_trans (a b c : spec_float) :
  SFcompare a b = Some Lt -> SFcompare b c = Some Eq -> SFcompare a c = Some Lt.
Proof.
  destruct a as [sa | sa | | sa ma ea], b as [sb | sb | | sb mb eb],
           c as [sc | sc | | sc mc ec];
    try destruct sa; try destruct sb; try destruct sc; sf_cases.
Qed.

Lemma SFcompare_refl (a : spec_float) (c : comparison) :
  SFcompare a a = Some c -> c = Eq.
Proof.
  destruct a as [sa | sa | | sa ma ea]; try destruct sa; sf_cases; congruence.
Qed.

Lemma ltb_trans (a b c : float) :
  (a <? b) = true -> (b <? c) = true -> (a <? c) = true.
Proof.
  rewrite !ltb_spec. unfold SFltb.
  destruct (SFcompare (Prim2SF a) (Prim2SF b)) as [[| |]|] eqn:Hab; try discriminate.
  destruct (SFcompare (Prim2SF b) (Prim2SF c)) as [[| |]|] eqn:Hbc; try discriminate.
  now rewrite (SFcompare_lt_trans _ _ _ Hab Hbc).
Qed.

Lemma ltb_irrefl (a : float) : (a <? a) = false.
Proof.
  rewrite ltb_spec. unfold SFltb.
  destruct (SFcompare (Prim2SF a) (Prim2SF a)) as [c|] eqn:H; [|reflexivity].
  now rewrite (SFcompare_refl _ _ H).
Qed.

(** [a < b], and [c] is no NaN and not below [b]: [a < c]. *)
Lemma ltb_below_trans (a b c : float) :
  (a <? b) = true -> (c <? b) = false -> (c =? c) = true -> (a <? c) = true.
Proof.
  rewrite !ltb_spec, eqb_spec. unfold SFltb, SFeqb.
  destruct (SFcompare (Prim2SF a) (Prim2SF b)) as [[| |]|] eqn:Hab; try discriminate.
  intros _.
  destruct (SFcompare (Prim2SF c) (Prim2SF b)) as [[| |]|] eqn:Hcb; try discriminate.
  - intros _ _. apply SFcompare_antisym in Hcb. cbn in Hcb.
    now rewrite (SFcompare_lt_eq_trans _ _ _ Hab Hcb).
  - intros _ _. apply SFcompare_antisym in Hcb. cbn in Hcb.
    now rewrite (SFcompare_lt_trans _ _ _ Hab Hcb).
  - intros _. destruct (Prim2SF a), (Prim2SF b), (Prim2SF c); cbn in *; discriminate.
Qed.

(** Against a threshold that is a zero, the test is the test against 0. *)
Lemma ltb_zero_threshold (d t : float) :
  (t =? 0) = true -> (d <? t) = (d <? 0).
Proof.
  rewrite !ltb_spec, eqb_spec. change (Prim2SF 0) with (S754_zero false).
  unfold SFltb, SFeqb.
  destruct (Prim2SF t) as [st | st | | st mt et]; try destruct st; cbn; try discriminate;
    intros _; destruct (Prim2SF d); reflexivity.
Qed.

(** For a distance that is not below zero, the test [threshold != 0] of
    line 139 changes nothing. *)
Lemma float64_threshold_guard (d t : float) :
  (d <? 0) = false -> (d <? t) && negb (t =? 0) = (d <? t).
Proof.
  intros Hd. destruct (t =? 0) eqn:Ht; cbn [negb].
  - rewrite (ltb_zero_threshold d t Ht), Hd. reflexivity.
  - apply andb_true_r.
Qed.

Section Loop.
Variable norm : Float64.Array -> float.
Variable x : Float64.Array.

Lemma float64_row_seen (seen rest : list Float64.Array) j :
  (j < length seen)%nat -> Float64.row (seen ++ rest) j = Float64.row seen j.
Proof. intros H. unfold Float64.row. now apply app_nth1. Qed.

Lemma float64_row_next (seen : list Float64.Array) rw :
  Float64.row (seen ++ [rw]) (length seen) = rw.
Proof. unfold Float64.row. rewrite app_nth2 by lia. now rewrite Nat.sub_diag. Qed.

(** One more row, skipped or not nearer than the threshold: the state of the
    loop stays. *)
Lemma float64_nearest_state_stays (seen : list Float64.Array) rw threshold nearidx :
  Float64.nearest_state norm x seen threshold nearidx ->
  (Float64.kept norm (seen ++ [rw]) (length seen) = true ->
   (Float64.distance norm x (seen ++ [rw]) (length seen) <? threshold) = false) ->
  Float64.nearest_state norm x (seen ++ [rw]) threshold nearidx.
Proof.
  intros Hst Hnew.
  assert (Hk : forall j, (j < length seen)%nat ->
            Float64.kept norm (seen ++ [rw]) j = Float64.kept norm seen j).
  { intros j Hj. unfold Float64.kept. now rewrite float64_row_seen. }
  assert (Hd : forall j, (j < length seen)%nat ->
            Float64.distance norm x (seen ++ [rw]) j = Float64.distance norm x seen j).
  { intros j Hj. unfold Float64.distance. now rewrite float64_row_seen. }
  assert (Hlen : length (seen ++ [rw]) = S (length seen)).
  { rewrite length_app. cbn [length]. lia. }
  destruct Hst as [[Ht [Hn Hall]] | [Ht [Hlt [Hkr [Hfin [Hmin Hfirst]]]]]].
  - left. split; [exact Ht|]. split; [exact Hn|]. intros j Hj Hkj. rewrite Hlen in Hj.
    destruct (Nat.eq_dec j (length seen)) as [-> | Hne].
    + rewrite <- Ht. now apply Hnew.
    + rewrite Hd by lia. apply Hall; [lia|]. rewrite <- Hk by lia. exact Hkj.
  - right. split; [now rewrite Hd|]. split; [rewrite Hlen; lia|].
    split; [now rewrite Hk|]. split; [now rewrite Hd|]. split.
    + intros j Hj Hkj. rewrite Hlen in Hj. rewrite (Hd nearidx) by assumption.
      destruct (Nat.eq_dec j (length seen)) as [-> | Hne].
      * rewrite <- Ht. now apply Hnew.
      * rewrite Hd by lia. apply Hmin; [lia|]. rewrite <- Hk by lia. exact Hkj.
    + intros j Hj Hkj. rewrite (Hd nearidx) by assumption. rewrite !(Hd j) by lia.
      apply Hfirst; [exact Hj|]. rewrite <- Hk by lia. exact Hkj.
Qed.

(** One more row, kept and nearer than the threshold: it is the first
    nearest row now. *)
Lemma float64_nearest_state_moves (seen : list Float64.Array) rw threshold nearidx :
  Float64.nearest_state norm x seen threshold nearidx ->
  Float64.kept norm (seen ++ [rw]) (length seen) = true ->
  (Float64.distance norm x (seen ++ [rw]) (length seen) <? threshold) = true ->
  Float64.nearest_state norm x (seen ++ [rw])
    (Float64.distance norm x (seen ++ [rw]) (length seen)) (length seen).
Proof.
  intros Hst Hkept Hnear.
  set (d := Float64.distance norm x (seen ++ [rw]) (length seen)) in *.
  assert (Hk : forall j, (j < length seen)%nat ->
            Float64.kept norm (seen ++ [rw]) j = Float64.kept norm seen j).
  { intros j Hj. unfold Float64.kept. now rewrite float64_row_seen. }
  assert (Hd : forall j, (j < length seen)%nat ->
            Float64.distance norm x (seen ++ [rw]) j = Float64.distance norm x seen j).
  { intros j Hj. unfold Float64.distance. now rewrite float64_row_seen. }
  assert (Hlen : length (seen ++ [rw]) = S (length seen)).
  { rewrite length_app. cbn [length]. lia. }
  assert (Hfin : (d <? infinity) = true).
  { destruct Hst as [[Ht _] | [Ht [_ [_ [Hf _]]]]].
    - now rewrite <- Ht.
    - apply (ltb_trans d threshold); [exact Hnear|]. now rewrite Ht. }
  assert (Hold : forall j, (j < length seen)%nat -> Float64.kept norm seen j = true ->
            (Float64.distance norm x seen j <? threshold) = false).
  { destruct Hst as [[Ht [_ Hall]] | [Ht [_ [_ [_ [Hmin _]]]]]].
    - intros j Hj Hkj. rewrite Ht. now apply Hall.
    - intros j Hj Hkj. rewrite Ht. now apply Hmin. }
  right. split; [reflexivity|]. split; [rewrite Hlen; lia|].
  split; [exact Hkept|]. split; [exact Hfin|]. split.
  - intros j Hj Hkj. rewrite Hlen in Hj. fold d.
    destruct (Nat.eq_dec j (length seen)) as [-> | Hne].
    + apply ltb_irrefl.
    + rewrite Hd by lia. rewrite Hk in Hkj by lia.
      destruct (Float64.distance norm x seen j <? d) eqn:Hjd; [|reflexivity].
      rewrite <- (Hold j ltac:(lia) Hkj). symmetry.
      now apply (ltb_trans _ d).
  - intros j Hj Hkj. fold d. rewrite Hd by lia. rewrite Hk in Hkj by lia.
    destruct (Float64.distance norm x seen j =? Float64.distance norm x seen j) eqn:Hnan;
      [left | now right].
    apply (ltb_below_trans d threshold); [exact Hnear | now apply Hold | exact Hnan].
Qed.

(** The loop returns, with the first nearest row among the kept rows that it
    has seen. *)
Lemma float64_nearest_loop_state (rows : list Float64.Array) :
  forall seen threshold nearidx,
    Float64.rows_of_shape x rows = true ->
    Float64.distances_not_below_zero norm x rows = true ->
    Float64.nearest_state norm x seen threshold nearidx ->
    exists r t,
      Float64.nearest_loop norm x rows (length seen) threshold nearidx = Ok r /\
      Float64.nearest_state norm x (seen ++ rows) t r.
Proof.
  induction rows as [|rw rest IH]; intros seen threshold nearidx Hshape Hpos Hst.
  - exists nearidx, threshold. rewrite app_nil_r. now split.
  - cbn [Float64.rows_of_shape Float64.distances_not_below_zero forallb] in Hshape, Hpos.
    apply andb_true_iff in Hshape. destruct Hshape as [Hrw Hshape].
    apply andb_true_iff in Hpos. destruct Hpos as [Hd0 Hpos].
    apply Nat.eqb_eq in Hrw. apply negb_true_iff in Hd0.
    assert (Hnext : forall t nr, Float64.nearest_state norm x (seen ++ [rw]) t nr ->
              exists r t',
                Float64.nearest_loop norm x rest (S (length seen)) t nr = Ok r /\
                Float64.nearest_state norm x (seen ++ rw :: rest) t' r).
    { intros t nr H. specialize (IH (seen ++ [rw]) t nr Hshape Hpos H).
      rewrite <- app_assoc in IH. cbn [app] in IH.
      rewrite length_app in IH. cbn [length] in IH. rewrite Nat.add_1_r in IH.
      exact IH. }
    assert (Hkn : Float64.kept norm (seen ++ [rw]) (length seen) = negb (norm rw =? 0)).
    { unfold Float64.kept. now rewrite float64_row_next. }
    assert (Hdn : Float64.distance norm x (seen ++ [rw]) (length seen)
                  = norm (map (fun p => fst p - snd p) (combine rw x))).
    { unfold Float64.distance. now rewrite float64_row_next. }
    cbn [Float64.nearest_loop].
    destruct (norm rw =? 0) eqn:Hz.
    + apply Hnext. apply float64_nearest_state_stays; [exact Hst|].
      rewrite Hkn. discriminate.
    + rewrite (broadcast_same_shape sub rw x Hrw). cbn [bind].
      rewrite (float64_threshold_guard _ threshold Hd0).
      destruct (norm (map (fun p => fst p - snd p) (combine rw x)) <? threshold) eqn:Hlt.
      * rewrite <- Hdn. apply Hnext.
        apply (float64_nearest_state_moves seen rw threshold nearidx Hst).
        -- now rewrite Hkn.
        -- now rewrite Hdn.
      * apply Hnext. apply float64_nearest_state_stays; [exact Hst|].
        intros _. now rewrite Hdn.
Qed.
End Loop.

(** [GeometricRRT.find_nearest] on binary64 floats, for every implementation
    of the norm, on rows of the shape of [x] and distances not below zero: it
    returns the first of the rows of least computed distance among the rows
    whose computed norm is not 0; it returns 0 when no such row has a
    computed distance below infinity. *)
Theorem float64_find_nearest_first_nearest
        (norm : Float64.Array -> float) (V : list Float64.Array) (x : Float64.Array) :
  Float64.rows_of_shape x V = true ->
  Float64.distances_not_below_zero norm x V = true ->
  exists r, Float64.find_nearest norm V x = Ok r /\
    ((r = 0%nat /\
      forall j, (j < length V)%nat -> Float64.kept norm V j = true ->
                (Float64.distance norm x V j <? infinity) = false) \/
     Float64.first_nearest norm x V r).
Proof.
  intros Hshape Hpos. unfold Float64.find_nearest.
  assert (H0 : Float64.nearest_state norm x [] infinity 0).
  { left. split; [reflexivity|]. split; [reflexivity|]. cbn [length]. intros j Hj. lia. }
  destruct (float64_nearest_loop_state norm x V [] infinity 0%nat Hshape Hpos H0)
    as [r [t [Hr Hst]]].
  cbn [app length] in Hr, Hst. exists r. split; [exact Hr|].
  destruct Hst as [[_ [Hn Hall]] | [_ Hf]]; [left; now split | now right].
Qed.

Lemma ltb_below_infinity (a b : float) :
  (a <? b) = true -> (a <? infinity) = true.
Proof.
  rewrite !ltb_spec. change (Prim2SF infinity) with (S754_infinity false).
  unfold SFltb.
  destruct (Prim2SF a) as [sa | sa | | sa ma ea], (Prim2SF b) as [sb | sb | | sb mb eb];
    try destruct sa; try destruct sb; cbn; try discriminate; reflexivity.
Qed.

Lemma float64_find_nearest_first_nearest_witness :
  let V := [[0; 0]; [3; 4]; [1; 0x1p-30]; [1; 0]; [0; 0]] in
  Float64.rows_of_shape [0; 0] V = true /\
  Float64.distances_not_below_zero Float64.norm_sequential [0; 0] V = true /\
  exists r, Float64.find_nearest Float64.norm_sequential V [0; 0] = Ok r /\
    ((r = 0%nat /\
      forall j, (j < length V)%nat -> Float64.kept Float64.norm_sequential V j = true ->
                (Float64.distance Float64.norm_sequential [0; 0] V j <? infinity) = false) \/
     Float64.first_nearest Float64.norm_sequential [0; 0] V r).
Proof.
  cbv zeta. split; [reflexivity|]. split; [vm_compute; reflexivity|].
  exact (float64_find_nearest_first_nearest Float64.norm_sequential
           [[0; 0]; [3; 4]; [1; 0x1p-30]; [1; 0]; [0; 0]] [0; 0]
           eq_refl ltac:(vm_compute; reflexivity)).
Defined.

(** On a tree whose rows from slot [n] on are unwritten, with the norm
    computed on binary64 floats: [GeometricRRT.find_nearest] returns a slot
    below [n], and no row of the tree whose computed norm is not 0 has a
    computed distance below the one of the row it returns. *)
Theorem float64_find_nearest_prefix
        (norm : Float64.Array -> float) (V : list Float64.Array) (x : Float64.Array)
        (n : nat) :
  Float64.rows_of_shape x V = true ->
  Float64.distances_not_below_zero norm x V = true ->
  (1 <= n)%nat ->
  Float64.unwritten_from norm n V = true ->
  exists r, Float64.find_nearest norm V x = Ok r /\ (r < n)%nat /\
    forall j, (j < length V)%nat -> Float64.kept norm V j = true ->
      (Float64.distance norm x V j <? Float64.distance norm x V r) = false.
Proof.
  intros Hshape Hpos Hn Hun.
  assert (Hrest : forall j, (n <= j < length V)%nat -> Float64.kept norm V j = false).
  { intros j Hj. unfold Float64.unwritten_from in Hun.
    rewrite forallb_forall in Hun. unfold Float64.kept, Float64.row.
    replace j with (n + (j - n))%nat by lia. rewrite <- nth_skipn.
    rewrite Hun; [reflexivity|]. apply nth_In. rewrite length_skipn. lia. }
  destruct (float64_nearest_loop_state norm x V [] infinity 0%nat Hshape Hpos)
    as [r [t [Hr Hst]]].
  { left. split; [reflexivity|]. split; [reflexivity|]. cbn [length]. intros j Hj. lia. }
  cbn [app length] in Hr, Hst. exists r. split; [exact Hr|].
  destruct Hst as [[_ [-> Hall]] | [_ [Hlt [Hk [_ [Hmin _]]]]]].
  - split; [lia|]. intros j Hj Hkj.
    destruct (Float64.distance norm x V j <? Float64.distance norm x V 0) eqn:E;
      [|reflexivity].
    rewrite <- (Hall j Hj Hkj). symmetry. exact (ltb_below_infinity _ _ E).
  - split; [|exact Hmin].
    destruct (Nat.lt_ge_cases r n) as [H | H]; [exact H|].
    rewrite Hrest in Hk by lia. discriminate.
Qed.

Lemma float64_find_nearest_prefix_witness :
  let V := [[0; 0]; [3; 4]; [1; 0]; [0; 0]; [0; 0]] in
  Float64.rows_of_shape [1; 1] V = true /\
  Float64.distances_not_below_zero Float64.norm_sequential [1; 1] V = true /\
  (1 <= 3)%nat /\
  Float64.unwritten_from Float64.norm_sequential 3 V = true /\
  exists r, Float64.find_nearest Float64.norm_sequential V [1; 1] = Ok r /\ (r < 3)%nat /\
    forall j, (j < length V)%nat -> Float64.kept Float64.norm_sequential V j = true ->
      (Float64.distance Float64.norm_sequential [1; 1] V j
       <? Float64.distance Float64.norm_sequential [1; 1] V r) = false.
Proof.
  cbv zeta. split; [reflexivity|]. split; [vm_compute; reflexivity|].
  split; [lia|]. split; [vm_compute; reflexivity|].
  exact (float64_find_nearest_prefix Float64.norm_sequential
           [[0; 0]; [3; 4]; [1; 0]; [0; 0]; [0; 0]] [1; 1] 3
           eq_refl ltac:(vm_compute; reflexivity) ltac:(lia)
           ltac:(vm_compute; reflexivity)).
Defined.

End Float64Nearest.
